(** * pytoon: the TOON encoder and decoder of [pytoon/toon.py]

    A shallow embedding of [dumps] and [loads] with the helpers they call,
    followed by the properties of the specification that concern them.

    Modelling conventions.
    - A Python [str] is a [list ascii]; one [ascii] is one code point, so the
      model covers the texts whose code points are below 256.  The character
      classes ([isspace], line boundaries, identifier characters, [lower])
      are the ones CPython 3 uses on that range.
    - [int] is [Z]; [float] is an IEEE binary64 value ([spec_float]).
    - A [dict] is an association list in insertion order; a [list] or a
      [tuple] is a [list].  Objects, dataclasses and named tuples reach the
      encoder as the [dict] that [_object_to_dict] builds from them, and a
      [set] as the list it is iterated into, so the value type has no
      constructors for them.
    - The cursor [idx] of [loads] is the suffix of [processed] that is still
      to be read.
    - [dumps] and [loads] are the functions on a call stack that never runs
      out, and with [sys.int_max_str_digits] off; [dumps_stack] and
      [loads_stack] are the same functions on a stack with room for a given
      number of nested calls, where the interpreter raises
      [RecursionError]. *)

From Stdlib Require Import ZArith NArith List Ascii Bool Lia Sorted.
From Stdlib Require String DecimalString DecimalPos.
From Stdlib Require Import SpecFloat.
Import ListNotations String.StringSyntax.

#[local] Set Warnings "-register-all".

Local Open Scope string_scope.
Local Open Scope list_scope.

(** ** Python strings *)

Definition str := list ascii.

(** A literal of the development read as a Python string. *)
Definition pystr (s : String.string) : str := String.list_ascii_of_string s.

Definition ord (c : ascii) : nat := nat_of_ascii c.

Definition dquote : ascii := "034"%char.
Definition squote : ascii := "039"%char.
Definition backslash : ascii := "092"%char.
Definition newline : ascii := "010"%char.
Definition creturn : ascii := "013"%char.

Definition str_eqb (a b : str) : bool :=
  if list_eq_dec ascii_dec a b then true else false.

(** [ch in s] for a one-character [ch]. *)
Definition contains (c : ascii) (s : str) : bool :=
  existsb (Ascii.eqb c) s.

(** [str.isspace] on one character: TAB..CR, FS..US, space, NEL, NBSP. *)
Definition isspace (c : ascii) : bool :=
  let n := ord c in
  ((9 <=? n) && (n <=? 13)) || ((28 <=? n) && (n <=? 32))
  || (n =? 133) || (n =? 160).

Fixpoint lstrip (s : str) : str :=
  match s with
  | c :: r => if isspace c then lstrip r else s
  | [] => []
  end.

Definition rstrip (s : str) : str := rev (lstrip (rev s)).

Definition strip (s : str) : str := rstrip (lstrip s).

Fixpoint startswith (s p : str) {struct p} : bool :=
  match p, s with
  | [], _ => true
  | a :: p', b :: s' => Ascii.eqb a b && startswith s' p'
  | _ :: _, [] => false
  end.

Definition endswith (s p : str) : bool := startswith (rev s) (rev p).

(** [s.rstrip("\n")] *)
Fixpoint drop_newlines (s : str) : str :=
  match s with
  | c :: r => if Ascii.eqb c newline then drop_newlines r else s
  | [] => []
  end.

Definition rstrip_nl (s : str) : str := rev (drop_newlines (rev s)).

(** [str.lower] on one character (Latin-1: A-Z and the accented capitals). *)
Definition lower_char (c : ascii) : ascii :=
  let n := ord c in
  if ((65 <=? n) && (n <=? 90))
     || ((192 <=? n) && (n <=? 222) && negb (n =? 215))
  then ascii_of_nat (n + 32) else c.

Definition lower (s : str) : str := map lower_char s.

(** [sep.join(parts)] *)
Fixpoint join (sep : str) (parts : list str) : str :=
  match parts with
  | [] => []
  | [p] => p
  | p :: rest => p ++ sep ++ join sep rest
  end.

(** [s * n] *)
Fixpoint repeat_str (s : str) (n : nat) : str :=
  match n with
  | O => []
  | S k => s ++ repeat_str s k
  end.

(** [s.index(c, start)]: [None] stands for [ValueError]. *)
Fixpoint index_from (c : ascii) (s : str) (start : nat) : option nat :=
  match start, s with
  | S k, _ :: r => option_map S (index_from c r k)
  | S _, [] => None
  | O, [] => None
  | O, a :: r => if Ascii.eqb a c then Some 0
                 else option_map S (index_from c r 0)
  end.

(** [s[i:j]] for [0 <= i] and [0 <= j]. *)
Definition slice (s : str) (i j : nat) : str := firstn (j - i) (skipn i s).

(** [s.split(c)] for a one-character separator. *)
Fixpoint split_char (c : ascii) (s : str) : list str :=
  match s with
  | [] => [[]]
  | a :: r =>
      if Ascii.eqb a c then [] :: split_char c r
      else match split_char c r with
           | p :: ps => (a :: p) :: ps
           | [] => [[a]]
           end
  end.

(** [s.split(c, 1)[0]]: the text before the first [c], all of [s] when there
    is none. *)
Fixpoint before_first (c : ascii) (s : str) : str :=
  match s with
  | [] => []
  | a :: r => if Ascii.eqb a c then [] else a :: before_first c r
  end.

(** [s.split(c, 1)[1]] when [c] occurs in [s]. *)
Fixpoint after_first (c : ascii) (s : str) : str :=
  match s with
  | [] => []
  | a :: r => if Ascii.eqb a c then r else after_first c r
  end.

(** [s.strip(c)] for a one-character set. *)
Fixpoint lstrip_char (c : ascii) (s : str) : str :=
  match s with
  | a :: r => if Ascii.eqb a c then lstrip_char c r else s
  | [] => []
  end.

Definition strip_char (c : ascii) (s : str) : str :=
  rev (lstrip_char c (rev (lstrip_char c s))).

(** The boundaries [str.splitlines] recognises below code point 256. *)
Definition is_linebreak (c : ascii) : bool :=
  let n := ord c in
  ((10 <=? n) && (n <=? 13)) || ((28 <=? n) && (n <=? 30)) || (n =? 133).

(** [str.splitlines]: [cur] is the line being read, reversed; CR LF is one
    boundary; no empty line is produced after a final boundary. *)
Fixpoint splitlines_aux (s : str) (cur : str) : list str :=
  match s with
  | [] => match cur with [] => [] | _ => [rev cur] end
  | c :: r =>
      if is_linebreak c then
        match r with
        | d :: r' =>
            if Ascii.eqb c creturn && Ascii.eqb d newline
            then rev cur :: splitlines_aux r' []
            else rev cur :: splitlines_aux r []
        | [] => [rev cur]
        end
      else splitlines_aux r (c :: cur)
  end.

Definition splitlines (s : str) : list str := splitlines_aux s [].

(** [str.isidentifier]: XID_Start or underscore, then XID_Continue. *)
Definition is_xid_start (c : ascii) : bool :=
  let n := ord c in
  ((65 <=? n) && (n <=? 90)) || ((97 <=? n) && (n <=? 122))
  || (n =? 170) || (n =? 181) || (n =? 186)
  || ((192 <=? n) && (n <=? 214)) || ((216 <=? n) && (n <=? 246))
  || ((248 <=? n) && (n <=? 255)).

Definition is_xid_continue (c : ascii) : bool :=
  let n := ord c in
  is_xid_start c || ((48 <=? n) && (n <=? 57)) || (n =? 95) || (n =? 183).

Definition isidentifier (s : str) : bool :=
  match s with
  | [] => false
  | c :: r =>
      (is_xid_start c || Ascii.eqb c "_"%char) && forallb is_xid_continue r
  end.

(** ** JSON string literals: [json.dumps(s, ensure_ascii=False)] and
    [json.loads] *)

Definition hex_digit (n : nat) : ascii :=
  if n <? 10 then ascii_of_nat (48 + n) else ascii_of_nat (87 + n).

(** One character of a string as [json.dumps] writes it with
    [ensure_ascii=False]: the quote, the backslash and the control characters
    are escaped, everything else is copied. *)
Definition json_escape_char (c : ascii) : str :=
  let n := ord c in
  if Ascii.eqb c dquote then [backslash; dquote]
  else if Ascii.eqb c backslash then [backslash; backslash]
  else if n =? 10 then [backslash; "n"%char]
  else if n =? 13 then [backslash; "r"%char]
  else if n =? 9 then [backslash; "t"%char]
  else if n =? 8 then [backslash; "b"%char]
  else if n =? 12 then [backslash; "f"%char]
  else if n <? 32 then
    [backslash; "u"%char; "0"%char; "0"%char;
     hex_digit (n / 16); hex_digit (n mod 16)]
  else [c].

Definition json_dumps (s : str) : str :=
  dquote :: flat_map json_escape_char s ++ [dquote].

Definition hex_val (c : ascii) : option nat :=
  let n := ord c in
  if (48 <=? n) && (n <=? 57) then Some (n - 48)
  else if (97 <=? n) && (n <=? 102) then Some (n - 87)
  else if (65 <=? n) && (n <=? 70) then Some (n - 55)
  else None.

Definition hex4 (a b c d : ascii) : option nat :=
  match hex_val a, hex_val b, hex_val c, hex_val d with
  | Some x, Some y, Some z, Some w => Some (((x * 16 + y) * 16 + z) * 16 + w)
  | _, _, _, _ => None
  end.

(** The one-letter escapes of a JSON string. *)
Definition json_unescape (e : ascii) : option ascii :=
  if Ascii.eqb e dquote then Some dquote
  else if Ascii.eqb e backslash then Some backslash
  else if Ascii.eqb e "/"%char then Some "/"%char
  else if Ascii.eqb e "b"%char then Some "008"%char
  else if Ascii.eqb e "f"%char then Some "012"%char
  else if Ascii.eqb e "n"%char then Some newline
  else if Ascii.eqb e "r"%char then Some creturn
  else if Ascii.eqb e "t"%char then Some "009"%char
  else None.

(** The scanner of a JSON string, started after the opening quote: the
    decoded text and what follows the closing quote.  [None] is a
    [JSONDecodeError] (no closing quote, a raw control character, an unknown
    escape); a [\uXXXX] escape of a code point from 256 on denotes a text the
    model does not cover and is answered [None] as well, where [json.loads]
    decodes it: [json.dumps] writes no such escape for a text of the
    model. *)
Fixpoint json_scanstring (s : str) : option (str * str) :=
  match s with
  | [] => None
  | c :: r =>
      if Ascii.eqb c dquote then Some ([], r)
      else if Ascii.eqb c backslash then
        match r with
        | [] => None
        | e :: r1 =>
            if Ascii.eqb e "u"%char then
              match r1 with
              | h1 :: h2 :: h3 :: h4 :: r2 =>
                  match hex4 h1 h2 h3 h4 with
                  | Some n =>
                      if n <? 256 then
                        match json_scanstring r2 with
                        | Some (d, rest) => Some (ascii_of_nat n :: d, rest)
                        | None => None
                        end
                      else None
                  | None => None
                  end
              | _ => None
              end
            else
              match json_unescape e with
              | Some d1 =>
                  match json_scanstring r1 with
                  | Some (d, rest) => Some (d1 :: d, rest)
                  | None => None
                  end
              | None => None
              end
        end
      else if ord c <? 32 then None
      else
        match json_scanstring r with
        | Some (d, rest) => Some (c :: d, rest)
        | None => None
        end
  end.

Definition json_ws (c : ascii) : bool :=
  let n := ord c in (n =? 32) || (n =? 9) || (n =? 10) || (n =? 13).

(** [json.loads(tok)] for a token that starts with a quote character, the
    only tokens [_parse_primitive_token] passes to it: a double quote opens a
    string, which must be all of the token but for white space; a single
    quote is no JSON. *)
Definition json_loads (tok : str) : option str :=
  match tok with
  | c :: r =>
      if Ascii.eqb c dquote then
        match json_scanstring r with
        | Some (d, rest) => if forallb json_ws rest then Some d else None
        | None => None
        end
      else None
  | [] => None
  end.

(** ** Numbers: [str(x)], [int(tok)], [float(tok)] *)

(** [str(x)] of an [int]: the decimal digits, after a minus sign when
    negative.  The length limit of the conversion ([sys.int_max_str_digits])
    is taken to be off; where it is on, [str] raises [ValueError] for an
    integer of more digits, see [within_int_max_str_digits]. *)
Definition str_of_int (z : Z) : str :=
  String.list_ascii_of_string
    (DecimalString.NilZero.string_of_int (Z.to_int z)).

Definition str_of_nat (n : nat) : str := str_of_int (Z.of_nat n).

Definition is_digit (c : ascii) : bool :=
  let n := ord c in (48 <=? n) && (n <=? 57).

Definition digit_val (c : ascii) : Z := Z.of_nat (ord c - 48).

Definition digits_val (ds : str) : Z :=
  fold_left (fun acc c => (acc * 10 + digit_val c)%Z) ds 0%Z.

(** Digit grouping: an underscore is accepted between two digits and
    nowhere else; [prev] is the character before [s]. *)
Fixpoint remove_underscores (prev : ascii) (s : str) : option str :=
  match s with
  | [] => if Ascii.eqb prev "_"%char then None else Some []
  | c :: r =>
      if Ascii.eqb c "_"%char then
        if is_digit prev then remove_underscores c r else None
      else if Ascii.eqb prev "_"%char && negb (is_digit c) then None
      else option_map (cons c) (remove_underscores c r)
  end.

(** An optional sign: [true] for minus. *)
Definition split_sign (s : str) : bool * str :=
  match s with
  | c :: r =>
      if Ascii.eqb c "-"%char then (true, r)
      else if Ascii.eqb c "+"%char then (false, r)
      else (false, s)
  | [] => (false, [])
  end.

(** [int(tok)]: [None] stands for [ValueError].  The length limit of the
    conversion ([sys.int_max_str_digits]) is taken to be off; where it is on,
    [int] raises [ValueError] for more digits and [_parse_primitive_token]
    goes on to [float].  The white space taken off is the one of [str.strip],
    which the callers have taken off before: [int] itself leaves the
    separators U+001C to U+001F in place. *)
Definition int_of_str (tok : str) : option Z :=
  match remove_underscores "000"%char (strip tok) with
  | Some s =>
      let '(neg, ds) := split_sign s in
      match ds with
      | [] => None
      | _ :: _ =>
          if forallb is_digit ds
          then Some (if neg then (- digits_val ds)%Z else digits_val ds)
          else None
      end
  | None => None
  end.

(** The default of [sys.int_max_str_digits]: with the limit on, [str(x)] and
    [int(tok)] raise [ValueError] for more decimal digits than this, the sign
    not counted. *)
Definition int_max_str_digits : nat := 4300.

(** The integers that the limit lets through; on them [str_of_int] and
    [int_of_str] are [str] and [int] whether the limit is on or off. *)
Definition within_int_max_str_digits (z : Z) : bool :=
  (List.length (str_of_int (Z.abs z)) <=? int_max_str_digits)%nat.

(** *** binary64 *)

Definition prec64 : Z := 53.
Definition emax64 : Z := 1024.

(** The binary64 nearest to [m * 10^e], ties to even, for [0 <= m]. *)
Definition float_of_decimal (neg : bool) (m e : Z) : spec_float :=
  match m with
  | Zpos p =>
      if (0 <=? e)%Z then
        binary_round prec64 emax64 neg (Z.to_pos (m * 10 ^ e)) 0
      else
        let d := (10 ^ (- e))%Z in
        let k := Z.max 0 (55 + Zdigits2 d - Zdigits2 m) in
        let n := (m * 2 ^ k)%Z in
        let r := (n mod d)%Z in
        let loc := if (r =? 0)%Z then loc_Exact
                   else loc_Inexact (Z.compare (2 * r) d) in
        binary_round_aux prec64 emax64 neg (n / d) (- k) loc
  | _ => S754_zero neg
  end.

Fixpoint span_digits (s : str) : str * str :=
  match s with
  | c :: r =>
      if is_digit c then let '(d, t) := span_digits r in (c :: d, t)
      else ([], s)
  | [] => ([], [])
  end.

(** What may follow the mantissa: nothing, or [e], a sign and digits. *)
Definition parse_exponent (s : str) : option Z :=
  match s with
  | [] => Some 0%Z
  | c :: r =>
      if Ascii.eqb c "e"%char || Ascii.eqb c "E"%char then
        let '(neg, ds) := split_sign r in
        match ds with
        | [] => None
        | _ :: _ =>
            if forallb is_digit ds
            then Some (if neg then (- digits_val ds)%Z else digits_val ds)
            else None
        end
      else None
  end.

(** [float(tok)]: [None] stands for [ValueError]. *)
Definition float_of_str (tok : str) : option spec_float :=
  match remove_underscores "000"%char (strip tok) with
  | Some s =>
      let '(neg, body) := split_sign s in
      let lb := lower body in
      if str_eqb lb (pystr "inf") || str_eqb lb (pystr "infinity")
      then Some (S754_infinity neg)
      else if str_eqb lb (pystr "nan") then Some S754_nan
      else
        let '(ip, r1) := span_digits body in
        let '(fp, r2) :=
          match r1 with
          | c :: r => if Ascii.eqb c "."%char then span_digits r else ([], r1)
          | [] => ([], r1)
          end in
        match ip ++ fp with
        | [] => None
        | ds =>
            match parse_exponent r2 with
            | Some e =>
                Some (float_of_decimal neg (digits_val ds)
                        (e - Z.of_nat (length fp)))
            | None => None
            end
        end
  | None => None
  end.

Definition float_same (a b : spec_float) : bool :=
  match a, b with
  | S754_zero s, S754_zero t => Bool.eqb s t
  | S754_infinity s, S754_infinity t => Bool.eqb s t
  | S754_nan, S754_nan => true
  | S754_finite s m e, S754_finite t n f =>
      Bool.eqb s t && Pos.eqb m n && Z.eqb e f
  | _, _ => false
  end.

(** [num / (den * 10^s)] as a quotient of two integers. *)
Definition scale10 (num den s : Z) : Z * Z :=
  if (0 <=? s)%Z then (num, (den * 10 ^ s)%Z) else ((num * 10 ^ (- s))%Z, den).

(** The least [p] from [p0] on with [num / den < 10^p]. *)
Fixpoint decimal_point (fuel : nat) (num den p0 : Z) : Z :=
  match fuel with
  | O => p0
  | S f =>
      let '(a, b) := scale10 num den p0 in
      if (a <? b)%Z then p0 else decimal_point f num den (p0 + 1)
  end.

(** The shortest decimal that reads back as [x = num / den]: the digits as an
    integer and the power of ten they are scaled by.  With [n] digits the two
    neighbours of [x] are tried, the nearer one first. *)
Fixpoint shortest_digits (fuel : nat) (x : spec_float) (num den p : Z)
    (n : Z) : Z * Z :=
  match fuel with
  | O => (0%Z, 0%Z)
  | S f =>
      let s := (p - n)%Z in
      let '(a, b) := scale10 num den s in
      let lo := (a / b)%Z in
      let r := (a mod b)%Z in
      let hi := (lo + 1)%Z in
      let ok_lo := float_same (float_of_decimal false lo s) x in
      let ok_hi := float_same (float_of_decimal false hi s) x in
      let prefer_hi :=
        match Z.compare (2 * r) b with
        | Lt => false
        | Gt => true
        | Eq => Z.odd lo
        end in
      if (r =? 0)%Z && ok_lo then (lo, s)
      else if ok_lo && ok_hi then (if prefer_hi then hi else lo, s)
      else if ok_lo then (lo, s)
      else if ok_hi then (hi, s)
      else shortest_digits f x num den p (n + 1)
  end.

Fixpoint strip_zeros (fuel : nat) (c s : Z) : Z * Z :=
  match fuel with
  | O => (c, s)
  | S f =>
      if ((c mod 10 =? 0) && negb (c =? 0))%Z
      then strip_zeros f (c / 10)%Z (s + 1)%Z else (c, s)
  end.

(** [repr] of a positive finite float from its shortest digits [ds] and the
    position [decpt] of the point: fixed notation for [-4 < decpt <= 16],
    else exponent notation with two exponent digits at least. *)
Definition format_repr (ds : str) (decpt : Z) : str :=
  let nd := Z.of_nat (length ds) in
  if ((decpt <=? -4) || (16 <? decpt))%Z then
    let ex := (decpt - 1)%Z in
    let mant :=
      match ds with
      | d :: ((_ :: _) as rest) => d :: "."%char :: rest
      | _ => ds
      end in
    let es := str_of_int (Z.abs ex) in
    mant ++ ["e"%char; (if (ex <? 0)%Z then "-"%char else "+"%char)]
         ++ (if (length es <? 2)%nat then "0"%char :: es else es)
  else if (decpt <=? 0)%Z then
    pystr "0." ++ repeat "0"%char (Z.to_nat (- decpt)) ++ ds
  else if (nd <=? decpt)%Z then
    ds ++ repeat "0"%char (Z.to_nat (decpt - nd)) ++ pystr ".0"
  else
    firstn (Z.to_nat decpt) ds ++ "."%char :: skipn (Z.to_nat decpt) ds.

(** [str(x)] for a float. *)
Definition str_of_float (x : spec_float) : str :=
  match x with
  | S754_nan => pystr "nan"
  | S754_infinity s => if s then pystr "-inf" else pystr "inf"
  | S754_zero s => if s then pystr "-0.0" else pystr "0.0"
  | S754_finite sg m e =>
      let num := (Zpos m * 2 ^ Z.max e 0)%Z in
      let den := (2 ^ Z.max (- e) 0)%Z in
      let p0 := (((Z.log2 num - Z.log2 den) * 30103) / 100000 - 2)%Z in
      let p := decimal_point 8 num den p0 in
      let '(c0, s0) := shortest_digits 17 (S754_finite false m e) num den p 1 in
      let '(c, s) := strip_zeros 400 c0 s0 in
      let ds := str_of_int c in
      let body := format_repr ds (Z.of_nat (length ds) + s) in
      if sg then "-"%char :: body else body
  end.

(** ** Values *)

(** The primitives of [_is_primitive]: [None], [bool], [int], [float],
    [str]. *)
Inductive scalar : Type :=
  | PyNone
  | PyBool (b : bool)
  | PyInt (z : Z)
  | PyFloat (f : spec_float)
  | PyStr (s : str).

Inductive value : Type :=
  | VPrim (x : scalar)
  | VDict (items : list (str * value))
  | VList (items : list value).

Definition dict := list (str * value).

(** [d.get(k)] *)
Fixpoint dict_get (k : str) (d : dict) : option value :=
  match d with
  | [] => None
  | (k', v) :: r => if str_eqb k' k then Some v else dict_get k r
  end.

(** [k in d] *)
Definition dict_mem (k : str) (d : dict) : bool :=
  existsb (fun kv => str_eqb (fst kv) k) d.

(** [d[k] = v]: a key that is present keeps its place. *)
Fixpoint dict_set (k : str) (v : value) (d : dict) : dict :=
  match d with
  | [] => [(k, v)]
  | (k', v') :: r =>
      if str_eqb k' k then (k, v) :: r else (k', v') :: dict_set k v r
  end.

Definition keys_of (v : value) : list str :=
  match v with
  | VDict items => map fst items
  | _ => []
  end.

Definition values_of (v : value) : list value :=
  match v with
  | VDict items => map snd items
  | _ => []
  end.

Definition is_dict (v : value) : bool :=
  match v with VDict _ => true | _ => false end.

(** Code point order on strings, the order of [sorted]. *)
Fixpoint str_leb (a b : str) : bool :=
  match a, b with
  | [], _ => true
  | _ :: _, [] => false
  | x :: a', y :: b' =>
      if (ord x <? ord y)%nat then true
      else if (ord y <? ord x)%nat then false
      else str_leb a' b'
  end.

Fixpoint insert_sorted (k : str) (l : list str) : list str :=
  match l with
  | [] => [k]
  | h :: t => if str_leb k h then k :: l else h :: insert_sorted k t
  end.

(** [sorted(s)] for a list of strings. *)
Definition sorted (l : list str) : list str :=
  fold_right insert_sorted [] l.

(** [set(keys)] as the list of its members, each once. *)
Definition key_set (l : list str) : list str :=
  nodup (list_eq_dec ascii_dec) l.

(** [s == t] for two sets. *)
Definition set_eqb (s t : list str) : bool :=
  forallb (fun k => existsb (str_eqb k) t) s
  && forallb (fun k => existsb (str_eqb k) s) t.

Definition keys_eqb (a b : list str) : bool :=
  if list_eq_dec (list_eq_dec ascii_dec) a b then true else false.

(** ** Helpers for serialization *)

Definition INDENT_STR : str := pystr "  ".

Definition _is_primitive (x : value) : bool :=
  match x with VPrim _ => true | _ => false end.

(** The test [needs_quote] of [_to_toon_primitive], for a text that is not
    empty. *)
Definition needs_quote (s : str) : bool :=
  existsb (fun ch => contains ch s) [","%char; newline; creturn]
  || isspace (hd " "%char s)
  || isspace (last s " "%char)
  || (startswith s [dquote] || startswith s [squote])
  || existsb (str_eqb (lower s)) [pystr "null"; pystr "true"; pystr "false"].

Definition _to_toon_primitive (x : scalar) : str :=
  match x with
  | PyNone => pystr "null"
  | PyBool b => if b then pystr "true" else pystr "false"
  | PyInt z => str_of_int z
  | PyFloat f => str_of_float f
  | PyStr s =>
      match s with
      | [] => [dquote; dquote]
      | _ :: _ => if needs_quote s then json_dumps s else s
      end
  end.

Definition _escape_header_key (k : str) : str :=
  if isidentifier k then k else json_dumps k.

Definition _all_dicts_uniform (list_of_dicts : list value)
  : bool * option (list str) :=
  match list_of_dicts with
  | [] => (false, None)
  | first :: _ =>
      if negb (forallb is_dict list_of_dicts) then (false, None)
      else
        let sets := map (fun d => key_set (keys_of d)) list_of_dicts in
        let first_set := key_set (keys_of first) in
        if forallb (fun s => set_eqb s first_set) sets then
          let first_keys := keys_of first in
          if forallb (fun d => keys_eqb (keys_of d) first_keys) list_of_dicts
          then (true, Some first_keys)
          else (true, Some (sorted first_set))
        else (false, None)
  end.

(** ** Serialization: [dumps] *)

(** [if name:] holds for a name that is given and not empty. *)
Definition named (name : option str) : bool :=
  match name with
  | Some (_ :: _) => true
  | _ => false
  end.

Definition name_text (name : option str) : str :=
  match name with
  | Some s => s
  | None => []
  end.

(** One cell of a table row, [_to_toon_primitive(d.get(k))]; the rows are
    written only when every value of every element is a primitive. *)
Definition row_cell (d : value) (k : str) : str :=
  match d with
  | VDict items =>
      match dict_get k items with
      | Some (VPrim x) => _to_toon_primitive x
      | _ => _to_toon_primitive PyNone
      end
  | _ => _to_toon_primitive PyNone
  end.

Definition prim_text (x : value) : str :=
  match x with
  | VPrim p => _to_toon_primitive p
  | _ => []
  end.

Fixpoint dumps (obj : value) (name : option str) (indent : nat) {struct obj}
  : str :=
  let pad := repeat_str INDENT_STR indent in
  match obj with
  | VPrim x =>
      let val := _to_toon_primitive x in
      if named name then pad ++ name_text name ++ pystr ": " ++ val ++ [newline]
      else pad ++ val ++ [newline]
  | VDict items =>
      let child_pad :=
        if named name then repeat_str INDENT_STR (indent + 1) else pad in
      match items with
      | [] =>
          if named name
          then pad ++ name_text name ++ pystr ":" ++ [newline]
                   ++ child_pad ++ pystr "{}" ++ [newline]
          else pad ++ pystr "{}" ++ [newline]
      | _ :: _ =>
          let lines :=
            (if named name then [pad ++ name_text name ++ pystr ":"] else [])
            ++ flat_map
                 (fun kv =>
                    let key := _escape_header_key (fst kv) in
                    match snd kv with
                    | VPrim x =>
                        [child_pad ++ key ++ pystr ": " ++ _to_toon_primitive x]
                    | _ =>
                        [child_pad ++ key ++ pystr ":";
                         rstrip_nl (dumps (snd kv) None (indent + 1))]
                    end)
                 items in
          join [newline] lines
          ++ match lines with [] => [] | _ :: _ => [newline] end
      end
  | VList lst =>
      let n := List.length lst in
      match lst with
      | [] =>
          if named name then pad ++ name_text name ++ pystr "[0]:" ++ [newline]
          else pad ++ pystr "[]" ++ [newline]
      | _ :: _ =>
          let '(uniform, keys) := _all_dicts_uniform lst in
          let keys := match keys with Some ks => ks | None => [] end in
          if uniform
             && negb (match keys with [] => true | _ => false end)
             && forallb (fun d => forallb _is_primitive (values_of d)) lst
          then
            let keys_escaped :=
              join [","%char] (map _escape_header_key keys) in
            let header :=
              pad ++ (if named name then name_text name else [])
                  ++ pystr "[" ++ str_of_nat n ++ pystr "]{"
                  ++ keys_escaped ++ pystr "}:" in
            let rows :=
              map (fun d =>
                     pad ++ INDENT_STR
                         ++ join [","%char] (map (row_cell d) keys))
                  lst in
            join [newline] (header :: rows) ++ [newline]
          else if forallb _is_primitive lst then
            if named name then
              pad ++ name_text name ++ pystr "[" ++ str_of_nat n ++ pystr "]: "
                  ++ join [","%char] (map prim_text lst) ++ [newline]
            else
              pad ++ pystr "- " ++ join (pystr ", ") (map prim_text lst)
                  ++ [newline]
          else
            let item_indent_str :=
              if named name then pad ++ INDENT_STR else pad in
            let nested_indent :=
              if named name then indent + 2 else indent + 1 in
            let lines :=
              (if named name
               then [pad ++ name_text name ++ pystr "[" ++ str_of_nat n
                         ++ pystr "]:"]
               else [])
              ++ flat_map
                   (fun item =>
                      match item with
                      | VPrim x =>
                          [item_indent_str ++ pystr "- "
                             ++ _to_toon_primitive x]
                      | _ =>
                          [item_indent_str ++ pystr "-";
                           rstrip_nl (dumps item None nested_indent)]
                      end)
                   lst in
            join [newline] lines ++ [newline]
      end
  end.

(** ** Parsing: [loads] *)

Definition quoted_with (q : ascii) (tok : str) : bool :=
  startswith tok [q] && endswith tok [q].

Definition _parse_primitive_token (tok : str) : scalar :=
  let tok := strip tok in
  if str_eqb tok [] then PyStr []
  else if str_eqb tok (pystr "null") then PyNone
  else if str_eqb tok (pystr "true") then PyBool true
  else if str_eqb tok (pystr "false") then PyBool false
  else if quoted_with dquote tok || quoted_with squote tok then
    match json_loads tok with
    | Some s => PyStr s
    | None => PyStr (slice tok 1 (List.length tok - 1))
    end
  else
    match int_of_str tok with
    | Some z => PyInt z
    | None =>
        match float_of_str tok with
        | Some f => PyFloat f
        | None => PyStr tok
        end
    end.

(** How many times [INDENT_STR], two spaces, opens [s]. *)
Fixpoint _count_leading_indent (s : str) : nat :=
  match s with
  | a :: b :: r =>
      if Ascii.eqb a " "%char && Ascii.eqb b " "%char
      then S (_count_leading_indent r) else 0
  | _ => 0
  end.

Definition is_quote (ch : ascii) : bool :=
  Ascii.eqb ch dquote || Ascii.eqb ch squote.

Definition same_quote (qchar : option ascii) (ch : ascii) : bool :=
  match qchar with
  | Some q => Ascii.eqb q ch
  | None => false
  end.

(** The loop of [_split_csv_like] from position [i] on. *)
Fixpoint split_csv_loop (s : str) (parts : list str) (cur : str)
    (in_q : bool) (qchar : option ascii) : list str :=
  match s with
  | [] =>
      if negb (str_eqb (strip cur) []) then parts ++ [strip cur] else parts
  | ch :: r =>
      if is_quote ch then
        if negb in_q then split_csv_loop r parts (cur ++ [ch]) true (Some ch)
        else if same_quote qchar ch
        then split_csv_loop r parts (cur ++ [ch]) false qchar
        else split_csv_loop r parts (cur ++ [ch]) in_q qchar
      else if Ascii.eqb ch ","%char && negb in_q
      then split_csv_loop r (parts ++ [strip cur]) [] in_q qchar
      else split_csv_loop r parts (cur ++ [ch]) in_q qchar
  end.

Definition _split_csv_like (s : str) : list str :=
  split_csv_loop s [] [] false None.

(** The search of [parse_block] for a colon that is not inside quotes. *)
Fixpoint find_colon (content : str) (i : nat) (in_q : bool)
    (qch : option ascii) : option nat :=
  match content with
  | [] => None
  | ch :: r =>
      let '(in_q1, qch1) :=
        if is_quote ch then
          if negb in_q then (true, Some ch)
          else if same_quote qch ch then (false, qch)
          else (in_q, qch)
        else (in_q, qch) in
      if Ascii.eqb ch ":"%char && negb in_q1 then Some i
      else find_colon r (S i) in_q1 qch1
  end.

(** The column keys of a table header [name[N]{k1,k2}]; a [ValueError] of
    [index] leaves no keys. *)
Definition header_keys (key_part : str) : list str :=
  match index_from "["%char key_part 0 with
  | Some br_start =>
      match index_from "]"%char key_part br_start with
      | Some br_end =>
          match index_from "{"%char key_part br_end with
          | Some keys_start =>
              match index_from "}"%char key_part keys_start with
              | Some keys_end =>
                  let keys_str := slice key_part (keys_start + 1) keys_end in
                  map (fun k => strip_char squote (strip_char dquote (strip k)))
                      (filter (fun k => negb (str_eqb (strip k) []))
                              (split_char ","%char keys_str))
              | None => []
              end
          | None => []
          end
      | None => []
      end
  | None => []
  end.

(** One table row: the keys zipped with the cells of the line. *)
Definition table_row (keys : list str) (row_content : str) : value :=
  VDict (fold_left
           (fun row kv =>
              dict_set (fst kv) (VPrim (_parse_primitive_token (snd kv))) row)
           (combine keys (_split_csv_like (strip row_content)))
           []).

Definition line := (nat * str)%type.

(** The rows of a table: the lines that follow at [expected_indent + 1]. *)
Fixpoint table_rows (keys : list str) (row_indent : nat) (lines : list line)
  : list value * list line :=
  match lines with
  | (indent, row_content) :: rest =>
      if (indent =? row_indent)%nat then
        let '(rows, rest') := table_rows keys row_indent rest in
        (table_row keys row_content :: rows, rest')
      else ([], lines)
  | [] => ([], [])
  end.

(** What [parse_block] returns when its loop ends. *)
Definition block_result (result : dict) (arr_mode : option (list value))
  : value :=
  match arr_mode with
  | Some arr => VList arr
  | None =>
      if (List.length result =? 1)%nat && dict_mem (pystr "_table") result
      then match dict_get (pystr "_table") result with
           | Some v => v
           | None => VDict result
           end
      else VDict result
  end.

Definition is_empty_state (result : dict) (arr_mode : option (list value))
  : bool :=
  match arr_mode, result with
  | None, [] => true
  | _, _ => false
  end.

(** [nested == {}] *)
Definition is_empty_dict (v : value) : bool :=
  match v with
  | VDict [] => true
  | _ => false
  end.

(** [parse_block(expected_indent)], one call and the iterations of its
    [while] loop: [lines] is [processed[idx:]], [result] and [arr_mode] are
    the locals of the call; a fresh call starts from [[]] and [None].  The
    answer is the value returned and the lines left to the caller.  Every
    step that recurs has consumed a line, so [fuel] above the number of lines
    is never used up; [None] is the answer without fuel only. *)
Fixpoint parse_block (fuel : nat) (expected_indent : nat) (lines : list line)
    (result : dict) (arr_mode : option (list value))
  : option (value * list line) :=
  match fuel with
  | O => None
  | S fuel' =>
      match lines with
      | [] => Some (block_result result arr_mode, [])
      | (indent, content) :: rest =>
          if (indent <? expected_indent)%nat || (expected_indent <? indent)%nat
          then Some (block_result result arr_mode, lines)
          else if str_eqb (strip content) (pystr "[]") then
            if is_empty_state result arr_mode then Some (VList [], rest)
            else parse_block fuel' expected_indent rest result arr_mode
          else if str_eqb (strip content) (pystr "{}") then
            if is_empty_state result arr_mode then Some (VDict [], rest)
            else parse_block fuel' expected_indent rest result arr_mode
          else if startswith content (pystr "- ") || str_eqb content (pystr "-")
          then
            let arr := match arr_mode with Some a => a | None => [] end in
            if str_eqb content (pystr "-") then
              match rest with
              | (next_indent, _) :: _ =>
                  if (indent <? next_indent)%nat then
                    match parse_block fuel' (indent + 1) rest [] None with
                    | Some (item, rest') =>
                        parse_block fuel' expected_indent rest' result
                          (Some (arr ++ [item]))
                    | None => None
                    end
                  else
                    parse_block fuel' expected_indent rest result
                      (Some (arr ++ [VPrim PyNone]))
              | [] =>
                  parse_block fuel' expected_indent rest result
                    (Some (arr ++ [VPrim PyNone]))
              end
            else
              let val_tok := strip (skipn 2 content) in
              if contains ","%char val_tok
                 && negb (startswith val_tok [dquote]
                          || startswith val_tok [squote])
              then
                parse_block fuel' expected_indent rest result
                  (Some (arr ++ map (fun p => VPrim (_parse_primitive_token p))
                                    (_split_csv_like val_tok)))
              else
                parse_block fuel' expected_indent rest result
                  (Some (arr ++ [VPrim (_parse_primitive_token val_tok)]))
          else
            match find_colon content 0 false None with
            | None =>
                let val := VPrim (_parse_primitive_token content) in
                if is_empty_state result arr_mode then Some (val, rest)
                else
                  match arr_mode with
                  | Some arr =>
                      parse_block fuel' expected_indent rest result
                        (Some (arr ++ [val]))
                  | None =>
                      parse_block fuel' expected_indent rest result arr_mode
                  end
            | Some colon_pos =>
                let key_part := strip (firstn colon_pos content) in
                let val_part := strip (skipn (colon_pos + 1) content) in
                if str_eqb val_part [] then
                  if contains "["%char key_part && contains "]"%char key_part
                     && contains "{"%char key_part
                     && contains "}"%char key_part
                  then
                    let name_section :=
                      strip (before_first "["%char key_part) in
                    let keys := header_keys key_part in
                    let '(rows, rest') :=
                      table_rows keys (expected_indent + 1) rest in
                    let result_key :=
                      if str_eqb name_section [] then pystr "_table"
                      else name_section in
                    parse_block fuel' expected_indent rest'
                      (dict_set result_key (VList rows) result) arr_mode
                  else
                    let is_list_header :=
                      contains "["%char key_part
                      && endswith key_part (pystr "]")
                      && endswith (after_first "["%char key_part)
                                  (pystr "]") in
                    let real_key :=
                      if is_list_header
                      then strip (before_first "["%char key_part)
                      else key_part in
                    match parse_block fuel' (expected_indent + 1) rest [] None
                    with
                    | Some (nested, rest') =>
                        let nested :=
                          if is_list_header && is_empty_dict nested
                          then VList [] else nested in
                        parse_block fuel' expected_indent rest'
                          (dict_set real_key nested result) arr_mode
                    | None => None
                    end
                else if contains "["%char key_part
                        && contains "]"%char key_part
                then
                  let name := strip (before_first "["%char key_part) in
                  let vals :=
                    map (fun p => VPrim (_parse_primitive_token p))
                        (filter (fun p => negb (str_eqb p []))
                                (_split_csv_like val_part)) in
                  parse_block fuel' expected_indent rest
                    (dict_set name (VList vals) result) arr_mode
                else
                  parse_block fuel' expected_indent rest
                    (dict_set key_part
                       (VPrim (_parse_primitive_token val_part)) result)
                    arr_mode
            end
      end
  end.

(** The lines of [loads]: the blank ones dropped, the others cut into the
    indentation level and the content after it. *)
Definition preprocess (toon_str : str) : list line :=
  map (fun ln =>
         let indent := _count_leading_indent ln in
         (indent, skipn (indent * List.length INDENT_STR) ln))
      (map rstrip_nl
           (filter (fun ln => negb (str_eqb (strip ln) []))
                   (splitlines toon_str))).

(** [loads(toon_str)]; [None] would be a parse out of fuel, which
    [loads_total] excludes. *)
Definition loads (toon_str : str) : option value :=
  let processed := preprocess toon_str in
  match parse_block (S (List.length processed)) 0 processed [] None with
  | Some (parsed, _) => Some parsed
  | None => None
  end.

(** ** The vocabulary of the specification *)

(** *** Quoting *)

(** "case-insensitively equals [null], [true] or [false]" *)
Definition keyword_like (s : str) : Prop :=
  lower s = pystr "null" \/ lower s = pystr "true" \/ lower s = pystr "false".

Definition starts_with_space (s : str) : Prop :=
  exists c r, s = c :: r /\ isspace c = true.

Definition ends_with_space (s : str) : Prop :=
  exists r c, s = r ++ [c] /\ isspace c = true.

Definition starts_with_quote (s : str) : Prop :=
  exists r, s = dquote :: r \/ s = squote :: r.

(** The conditions under which a text is written as a quoted literal. *)
Definition must_quote (s : str) : Prop :=
  s = []
  \/ In ","%char s \/ In newline s \/ In creturn s
  \/ starts_with_space s \/ ends_with_space s
  \/ starts_with_quote s
  \/ keyword_like s.

(** The texts the quoting rule is there for. *)
Definition quoting_needed (s : str) : Prop :=
  In ","%char s \/ In newline s
  \/ starts_with_space s \/ ends_with_space s
  \/ keyword_like s.


Definition parses_as_number (s : str) : Prop :=
  int_of_str s <> None \/ float_of_str s <> None.

(** *** Tables *)

Definition all_mappings (l : list value) : Prop :=
  forall x, In x l -> exists items, x = VDict items.

Definition same_key_set (a b : value) : Prop :=
  forall k, In k (keys_of a) <-> In k (keys_of b).

Definition equal_key_sets (l : list value) : Prop :=
  forall x y, In x l -> In y l -> same_key_set x y.

Definition same_key_order (l : list value) : Prop :=
  forall x y, In x l -> In y l -> keys_of x = keys_of y.

Definition str_le (a b : str) : Prop := str_leb a b = true.

(** [ks] is the key set of [d] in increasing order. *)
Definition sorted_key_set (ks : list str) (d : value) : Prop :=
  StronglySorted str_le ks /\ NoDup ks
  /\ forall k, In k ks <-> In k (keys_of d).

Definition all_scalars (lst : list value) : Prop :=
  forall x, In x lst -> exists p, x = VPrim p.

Definition all_scalar_values (lst : list value) : Prop :=
  forall d v, In d lst -> In v (values_of d) -> exists p, v = VPrim p.

(** The lines of the table form: the header, then one row per element. *)
Definition table_header (name : option str) (keys : list str) (n indent : nat)
  : str :=
  repeat_str INDENT_STR indent
    ++ (if named name then name_text name else [])
    ++ pystr "[" ++ str_of_nat n ++ pystr "]{"
    ++ join [","%char] (map _escape_header_key keys) ++ pystr "}:".

Definition table_row_line (keys : list str) (indent : nat) (d : value) : str :=
  repeat_str INDENT_STR indent ++ INDENT_STR
    ++ join [","%char] (map (row_cell d) keys).

(** *** Lines *)

Definition blank (ln : str) : Prop := strip ln = [].

Definition no_linebreak (s : str) : Prop :=
  forallb (fun c => negb (is_linebreak c)) s = true.

(** A key made of identifier characters. *)
Definition plain_key (k : str) : Prop :=
  k <> [] /\ forallb is_xid_continue k = true.

(** What an identifier character is not. *)
Definition plain_char (c : ascii) : bool :=
  negb (isspace c) && negb (is_linebreak c) && negb (is_quote c)
  && negb (Ascii.eqb c ":"%char) && negb (Ascii.eqb c "["%char)
  && negb (Ascii.eqb c "{"%char) && negb (Ascii.eqb c "-"%char)
  && negb (Ascii.eqb c newline).

(** *** Nesting *)

(** The nesting depth of a value: a primitive has none. *)
Fixpoint depth (v : value) : nat :=
  match v with
  | VPrim _ => 0
  | VDict items =>
      S (fold_right (fun kv d => Nat.max (depth (snd kv)) d) 0 items)
  | VList items => S (fold_right (fun x d => Nat.max (depth x) d) 0 items)
  end.

(** [{k: {k: ... {}}}], [n] keys deep. *)
Fixpoint nested_mapping (k : str) (n : nat) : value :=
  match n with
  | O => VDict []
  | S m => VDict [(k, nested_mapping k m)]
  end.

(** The text of [nested_mapping k n] from depth [i] on, without its last
    newline, and the lines [loads] makes of it. *)
Fixpoint nested_text (k : str) (n i : nat) : str :=
  match n with
  | O => repeat_str INDENT_STR i ++ pystr "{}"
  | S m =>
      repeat_str INDENT_STR i ++ (k ++ [":"%char])
        ++ newline :: nested_text k m (S i)
  end.

Fixpoint nested_lines (k : str) (n i : nat) : list line :=
  match n with
  | O => [(i, pystr "{}")]
  | S m => (i, k ++ [":"%char]) :: nested_lines k m (S i)
  end.

(** *** The call stack *)

(** What a call answers on the interpreter's bounded call stack: the value it
    returns, or the [RecursionError] the interpreter raises when one more
    call does not fit.  [toon.py] has no error of its own for nesting, and
    for the values of this model no [try] of [toon.py] is around a nested
    call of [dumps] or of [parse_block]: the error leaves the outermost
    call. *)
Inductive outcome (A : Type) : Type :=
| Returned (a : A)
| RecursionError.

Arguments Returned {A} a.
Arguments RecursionError {A}.

(** The lines a loop of [dumps] has appended when it ends: every iteration
    ran, or one of them raised. *)
Fixpoint collect (parts : list (outcome (list str))) : outcome (list str) :=
  match parts with
  | [] => Returned []
  | Returned ls :: rest =>
      match collect rest with
      | Returned more => Returned (ls ++ more)
      | RecursionError => RecursionError
      end
  | RecursionError :: _ => RecursionError
  end.

(** [dumps] on a call stack with room for [frames] nested calls of [dumps],
    this one included; a call is counted with the frames of the helpers it
    runs.  [dumps] takes no depth to compare with and keeps no count of its
    own calls: each value that is not a primitive, under a key or in a list
    written with dashes, is one more call. *)
Fixpoint dumps_stack (frames : nat) (obj : value) (name : option str)
    (indent : nat) {struct frames} : outcome str :=
  match frames with
  | O => RecursionError
  | S room =>
      let pad := repeat_str INDENT_STR indent in
      match obj with
      | VPrim x =>
          let val := _to_toon_primitive x in
          if named name
          then Returned (pad ++ name_text name ++ pystr ": " ++ val
                             ++ [newline])
          else Returned (pad ++ val ++ [newline])
      | VDict items =>
          let child_pad :=
            if named name then repeat_str INDENT_STR (indent + 1) else pad in
          match items with
          | [] =>
              if named name
              then Returned (pad ++ name_text name ++ pystr ":" ++ [newline]
                                 ++ child_pad ++ pystr "{}" ++ [newline])
              else Returned (pad ++ pystr "{}" ++ [newline])
          | _ :: _ =>
              match
                collect
                  (map
                     (fun kv =>
                        let key := _escape_header_key (fst kv) in
                        match snd kv with
                        | VPrim x =>
                            Returned
                              [child_pad ++ key ++ pystr ": "
                                 ++ _to_toon_primitive x]
                        | _ =>
                            match dumps_stack room (snd kv) None (indent + 1)
                            with
                            | Returned text =>
                                Returned
                                  [child_pad ++ key ++ pystr ":";
                                   rstrip_nl text]
                            | RecursionError => RecursionError
                            end
                        end)
                     items)
              with
              | Returned body =>
                  let lines :=
                    (if named name then [pad ++ name_text name ++ pystr ":"]
                     else [])
                    ++ body in
                  Returned
                    (join [newline] lines
                     ++ match lines with [] => [] | _ :: _ => [newline] end)
              | RecursionError => RecursionError
              end
          end
      | VList lst =>
          let n := List.length lst in
          match lst with
          | [] =>
              if named name
              then Returned (pad ++ name_text name ++ pystr "[0]:"
                                 ++ [newline])
              else Returned (pad ++ pystr "[]" ++ [newline])
          | _ :: _ =>
              let '(uniform, keys) := _all_dicts_uniform lst in
              let keys := match keys with Some ks => ks | None => [] end in
              if uniform
                 && negb (match keys with [] => true | _ => false end)
                 && forallb (fun d => forallb _is_primitive (values_of d)) lst
              then
                let keys_escaped :=
                  join [","%char] (map _escape_header_key keys) in
                let header :=
                  pad ++ (if named name then name_text name else [])
                      ++ pystr "[" ++ str_of_nat n ++ pystr "]{"
                      ++ keys_escaped ++ pystr "}:" in
                let rows :=
                  map (fun d =>
                         pad ++ INDENT_STR
                             ++ join [","%char] (map (row_cell d) keys))
                      lst in
                Returned (join [newline] (header :: rows) ++ [newline])
              else if forallb _is_primitive lst then
                if named name then
                  Returned
                    (pad ++ name_text name ++ pystr "[" ++ str_of_nat n
                         ++ pystr "]: "
                         ++ join [","%char] (map prim_text lst) ++ [newline])
                else
                  Returned
                    (pad ++ pystr "- " ++ join (pystr ", ") (map prim_text lst)
                         ++ [newline])
              else
                let item_indent_str :=
                  if named name then pad ++ INDENT_STR else pad in
                let nested_indent :=
                  if named name then indent + 2 else indent + 1 in
                match
                  collect
                    (map
                       (fun item =>
                          match item with
                          | VPrim x =>
                              Returned
                                [item_indent_str ++ pystr "- "
                                   ++ _to_toon_primitive x]
                          | _ =>
                              match dumps_stack room item None nested_indent
                              with
                              | Returned text =>
                                  Returned
                                    [item_indent_str ++ pystr "-";
                                     rstrip_nl text]
                              | RecursionError => RecursionError
                              end
                          end)
                       lst)
                with
                | Returned body =>
                    let lines :=
                      (if named name
                       then [pad ++ name_text name ++ pystr "["
                                 ++ str_of_nat n ++ pystr "]:"]
                       else [])
                      ++ body in
                    Returned (join [newline] lines ++ [newline])
                | RecursionError => RecursionError
                end
          end
      end
  end.

(** [parse_block(expected_indent)] on a call stack with room for [frames]
    more nested calls of [parse_block] below this one.  The two calls
    [parse_block(indent + 1)] and [parse_block(expected_indent + 1)] of the
    source are the nested ones; the iterations of the [while] loop stay in
    the frame of their call.  [parse_block] takes no depth to compare with
    either.  As in [parse_block], [None] is the answer without fuel only. *)
Fixpoint parse_block_stack (fuel : nat) (frames : nat) (expected_indent : nat)
    (lines : list line) (result : dict) (arr_mode : option (list value))
  : option (outcome (value * list line)) :=
  match fuel with
  | O => None
  | S fuel' =>
      match lines with
      | [] => Some (Returned (block_result result arr_mode, []))
      | (indent, content) :: rest =>
          if (indent <? expected_indent)%nat || (expected_indent <? indent)%nat
          then Some (Returned (block_result result arr_mode, lines))
          else if str_eqb (strip content) (pystr "[]") then
            if is_empty_state result arr_mode
            then Some (Returned (VList [], rest))
            else parse_block_stack fuel' frames expected_indent rest result
                   arr_mode
          else if str_eqb (strip content) (pystr "{}") then
            if is_empty_state result arr_mode
            then Some (Returned (VDict [], rest))
            else parse_block_stack fuel' frames expected_indent rest result
                   arr_mode
          else if startswith content (pystr "- ") || str_eqb content (pystr "-")
          then
            let arr := match arr_mode with Some a => a | None => [] end in
            if str_eqb content (pystr "-") then
              match rest with
              | (next_indent, _) :: _ =>
                  if (indent <? next_indent)%nat then
                    match frames with
                    | O => Some RecursionError
                    | S room =>
                        match
                          parse_block_stack fuel' room (indent + 1) rest []
                            None
                        with
                        | Some (Returned (item, rest')) =>
                            parse_block_stack fuel' frames expected_indent
                              rest' result (Some (arr ++ [item]))
                        | Some RecursionError => Some RecursionError
                        | None => None
                        end
                    end
                  else
                    parse_block_stack fuel' frames expected_indent rest result
                      (Some (arr ++ [VPrim PyNone]))
              | [] =>
                  parse_block_stack fuel' frames expected_indent rest result
                    (Some (arr ++ [VPrim PyNone]))
              end
            else
              let val_tok := strip (skipn 2 content) in
              if contains ","%char val_tok
                 && negb (startswith val_tok [dquote]
                          || startswith val_tok [squote])
              then
                parse_block_stack fuel' frames expected_indent rest result
                  (Some (arr ++ map (fun p => VPrim (_parse_primitive_token p))
                                    (_split_csv_like val_tok)))
              else
                parse_block_stack fuel' frames expected_indent rest result
                  (Some (arr ++ [VPrim (_parse_primitive_token val_tok)]))
          else
            match find_colon content 0 false None with
            | None =>
                let val := VPrim (_parse_primitive_token content) in
                if is_empty_state result arr_mode
                then Some (Returned (val, rest))
                else
                  match arr_mode with
                  | Some arr =>
                      parse_block_stack fuel' frames expected_indent rest
                        result (Some (arr ++ [val]))
                  | None =>
                      parse_block_stack fuel' frames expected_indent rest
                        result arr_mode
                  end
            | Some colon_pos =>
                let key_part := strip (firstn colon_pos content) in
                let val_part := strip (skipn (colon_pos + 1) content) in
                if str_eqb val_part [] then
                  if contains "["%char key_part && contains "]"%char key_part
                     && contains "{"%char key_part
                     && contains "}"%char key_part
                  then
                    let name_section :=
                      strip (before_first "["%char key_part) in
                    let keys := header_keys key_part in
                    let '(rows, rest') :=
                      table_rows keys (expected_indent + 1) rest in
                    let result_key :=
                      if str_eqb name_section [] then pystr "_table"
                      else name_section in
                    parse_block_stack fuel' frames expected_indent rest'
                      (dict_set result_key (VList rows) result) arr_mode
                  else
                    let is_list_header :=
                      contains "["%char key_part
                      && endswith key_part (pystr "]")
                      && endswith (after_first "["%char key_part)
                                  (pystr "]") in
                    let real_key :=
                      if is_list_header
                      then strip (before_first "["%char key_part)
                      else key_part in
                    match frames with
                    | O => Some RecursionError
                    | S room =>
                        match
                          parse_block_stack fuel' room (expected_indent + 1)
                            rest [] None
                        with
                        | Some (Returned (nested, rest')) =>
                            let nested :=
                              if is_list_header && is_empty_dict nested
                              then VList [] else nested in
                            parse_block_stack fuel' frames expected_indent
                              rest' (dict_set real_key nested result) arr_mode
                        | Some RecursionError => Some RecursionError
                        | None => None
                        end
                    end
                else if contains "["%char key_part
                        && contains "]"%char key_part
                then
                  let name := strip (before_first "["%char key_part) in
                  let vals :=
                    map (fun p => VPrim (_parse_primitive_token p))
                        (filter (fun p => negb (str_eqb p []))
                                (_split_csv_like val_part)) in
                  parse_block_stack fuel' frames expected_indent rest
                    (dict_set name (VList vals) result) arr_mode
                else
                  parse_block_stack fuel' frames expected_indent rest
                    (dict_set key_part
                       (VPrim (_parse_primitive_token val_part)) result)
                    arr_mode
            end
      end
  end.

(** [loads(toon_str)] on a call stack with room for [frames] nested calls of
    [parse_block], the call [parse_block(0)] of [loads] being the first. *)
Definition loads_stack (frames : nat) (toon_str : str)
  : option (outcome value) :=
  let processed := preprocess toon_str in
  match frames with
  | O => Some RecursionError
  | S room =>
      match
        parse_block_stack (S (List.length processed)) room 0 processed [] None
      with
      | Some (Returned (parsed, _)) => Some (Returned parsed)
      | Some RecursionError => Some RecursionError
      | None => None
      end
  end.

(** "a configurable maximum nesting depth": a depth beyond which [f] does not
    return, whatever room the call stack has. *)
Definition imposes_max_depth {A : Type}
    (f : nat -> value -> option (outcome A)) : Prop :=
  exists max_depth, forall (frames : nat) (v : value),
    max_depth < depth v -> forall a, f frames v <> Some (Returned a).

(** *** The examples of the specification *)

Definition int_value (z : Z) : value := VPrim (PyInt z).
Definition text_value (s : String.string) : value := VPrim (PyStr (pystr s)).

(** [[1, 2, 3]] *)
Definition nums : value := VList [int_value 1; int_value 2; int_value 3].

(** [[{"id": 1, "val": "A"}, {"id": 2, "val": "B"}]] *)
Definition tbl : value :=
  VList [VDict [(pystr "id", int_value 1); (pystr "val", text_value "A")];
         VDict [(pystr "id", int_value 2); (pystr "val", text_value "B")]].

(** ** The vocabulary of the further properties *)

(** The digits of a decimal numeral, most significant first. *)
Definition digits_of (d : Decimal.uint) : str :=
  String.list_ascii_of_string (DecimalString.NilEmpty.string_of_uint d).

Definition no_underscore (s : str) : Prop :=
  forallb (fun c => negb (Ascii.eqb c "_"%char)) s = true.

(** A character that neither opens a quote nor separates cells. *)
Definition cell_char (c : ascii) : bool :=
  negb (is_quote c) && negb (Ascii.eqb c ","%char).

(** A token that is one cell of a comma-separated line as it stands. *)
Definition simple_token (tok : str) : Prop :=
  tok <> [] /\ strip tok = tok /\ no_linebreak tok
  /\ forallb cell_char tok = true.


(** The scalars whose token the decoder reads back as the scalar; floats are
    left out. *)
Definition reads_back (x : scalar) : Prop :=
  match x with
  | PyNone | PyBool _ | PyInt _ => True
  | PyFloat _ => False
  | PyStr s => must_quote s \/ ~ parses_as_number s
  end.

Definition no_dquote (s : str) : Prop :=
  forallb (fun c => negb (Ascii.eqb c dquote)) s = true.

(** A cell of a comma-separated line: a text with neither a comma nor a quote
    character, or a JSON literal of a text without a double quote. *)
Definition csv_cell (cell : str) : Prop :=
  forallb cell_char cell = true
  \/ exists s, cell = json_dumps s /\ no_dquote s.

(** The cells the splitter answers for the line made of [cells]: each one
    stripped, the last one left out when it is blank. *)
Definition split_cells (cells : list str) : list str :=
  map strip (removelast cells)
  ++ (if str_eqb (strip (last cells [])) [] then [] else [strip (last cells [])]).

(** The text made of [lines], each one ended by [ending]. *)
Definition unlines (ending : str) (lines : list str) : str :=
  flat_map (fun ln => ln ++ ending) lines.

(** The line ends of a text file: LF, or CR LF. *)
Definition line_ending (ending : str) : Prop :=
  ending = [newline] \/ ending = [creturn; newline].

(** What [loads] makes of one line that is not blank. *)
Definition tokenize (ln : str) : line :=
  (_count_leading_indent ln,
   skipn (_count_leading_indent ln * List.length INDENT_STR) ln).

Definition nonblank (ln : str) : bool := negb (str_eqb (strip ln) []).

(** The line [key: token]. *)
Definition scalar_line (kt : str * str) : str :=
  fst kt ++ ":"%char :: " "%char :: snd kt.

(** A line [key: token] the parser reads as such: a bare key, and a token
    that is not blank and holds no line boundary. *)
Definition scalar_line_ok (kt : str * str) : Prop :=
  isidentifier (fst kt) = true /\ strip (snd kt) <> []
  /\ no_linebreak (snd kt).

(** The mapping the lines [key: token] build, line after line. *)
Definition decoded_mapping (kts : list (str * str)) (result : dict) : dict :=
  fold_left
    (fun d kt => dict_set (fst kt) (VPrim (_parse_primitive_token (snd kt))) d)
    kts result.

(** The token of the last line with the key [k]. *)
Definition last_token (k : str) (kts : list (str * str)) : option str :=
  option_map snd (find (fun kt => str_eqb (fst kt) k) (rev kts)).

(** An entry of a flat mapping that survives the round trip: a bare key, and
    a scalar that is read back and whose token holds no line boundary. *)
Definition flat_entry_ok (kv : str * value) : Prop :=
  isidentifier (fst kv) = true
  /\ exists x, snd kv = VPrim x /\ reads_back x
               /\ no_linebreak (_to_toon_primitive x).

(** The key and the token of an entry. *)
Definition entry_token (kv : str * value) : str * str :=
  (fst kv, prim_text (snd kv)).





(** The list a line [- cells] adds to the list that is being read. *)
Definition dash_items (body : str) : list value :=
  let val_tok := strip body in
  if contains ","%char val_tok
     && negb (startswith val_tok [dquote] || startswith val_tok [squote])
  then map (fun p => VPrim (_parse_primitive_token p)) (_split_csv_like val_tok)
  else [VPrim (_parse_primitive_token val_tok)].









(** The lines [lines], each one [d] levels deeper. *)
Definition shift (d : nat) (lines : list line) : list line :=
  map (fun l => (fst l + d, snd l)) lines.

(** What [parse_block] returns, with the lines that are left [d] levels
    deeper. *)
Definition shift_result (d : nat) (r : option (value * list line))
  : option (value * list line) :=
  option_map (fun vr => (fst vr, shift d (snd vr))) r.

(** The line [ln], one level deeper. *)
Definition indented (ln : str) : str := INDENT_STR ++ ln.


(** The line of a list item: a dash, a space and the cells. *)
Definition dash_line (body : str) : str := "-"%char :: " "%char :: body.














(** * Properties *)

(** ** Strings *)

Lemma str_eqb_eq (a b : str) : str_eqb a b = true <-> a = b.
Proof.
  unfold str_eqb. destruct (list_eq_dec ascii_dec a b); split; congruence.
Qed.

Lemma str_eqb_refl (a : str) : str_eqb a a = true.
Proof. now apply str_eqb_eq. Qed.

Lemma str_eqb_neq (a b : str) : a <> b -> str_eqb a b = false.
Proof.
  intros H. destruct (str_eqb a b) eqn:E; [|reflexivity].
  apply str_eqb_eq in E. contradiction.
Qed.

Lemma contains_In (c : ascii) (s : str) : contains c s = true <-> In c s.
Proof.
  unfold contains. rewrite existsb_exists. split.
  - intros (x & Hx & E). apply Ascii.eqb_eq in E. now subst.
  - intros H. exists c. split; [assumption|apply Ascii.eqb_refl].
Qed.

Lemma forallb_rev_true {A : Type} (f : A -> bool) (l : list A) :
  forallb f l = true -> forallb f (rev l) = true.
Proof.
  rewrite !forallb_forall. intros H x Hx. apply H. now apply in_rev.
Qed.

Lemma filter_nothing {A : Type} (f : A -> bool) (l : list A) :
  Forall (fun x => f x = false) l -> filter f l = [].
Proof.
  induction 1 as [|x l Hx Hl IH]; simpl; [reflexivity|]. now rewrite Hx.
Qed.

Lemma last_snoc (s : str) (c d : ascii) : last (s ++ [c]) d = c.
Proof. apply last_last. Qed.

Lemma lstrip_nonspace (c : ascii) (s : str) :
  isspace c = false -> lstrip (c :: s) = c :: s.
Proof. intros H. simpl. now rewrite H. Qed.

Lemma rstrip_nonspace (s : str) (c : ascii) :
  isspace c = false -> rstrip (s ++ [c]) = s ++ [c].
Proof.
  intros H. unfold rstrip. rewrite rev_app_distr. simpl. rewrite H.
  simpl. now rewrite rev_involutive.
Qed.

(** A text whose first and last characters are no white space is its own
    [strip]. *)
Lemma strip_id (s : str) :
  isspace (hd " "%char s) = false -> isspace (last s " "%char) = false ->
  strip s = s.
Proof.
  intros Hh Hl. destruct s as [|c r]; [reflexivity|].
  unfold strip. simpl in Hh. rewrite (lstrip_nonspace _ _ Hh).
  destruct (exists_last (l := c :: r)) as (r' & d & E); [discriminate|].
  rewrite E in Hl |- *. rewrite last_snoc in Hl. now apply rstrip_nonspace.
Qed.

Lemma lstrip_spaces (s : str) : forallb isspace s = true -> lstrip s = [].
Proof.
  induction s as [|c r IH]; [reflexivity|]. cbn [forallb lstrip].
  intros H. apply andb_true_iff in H. destruct H as [-> Hr]. now apply IH.
Qed.

Lemma blank_spaces (s : str) : forallb isspace s = true -> blank s.
Proof. intros H. unfold blank, strip. now rewrite (lstrip_spaces s H). Qed.

Lemma startswith_char (q : ascii) (s : str) :
  startswith s [q] = true <-> exists r, s = q :: r.
Proof.
  destruct s as [|c r]; simpl.
  - split; [discriminate|]. intros (r & H). discriminate.
  - rewrite andb_true_r. split.
    + intros H. apply Ascii.eqb_eq in H. subst. now exists r.
    + intros (r' & H). injection H as -> _. apply Ascii.eqb_refl.
Qed.

(** ** The quoting rule of [_to_toon_primitive] *)

Lemma hd_space_iff (s : str) :
  s <> [] -> (isspace (hd " "%char s) = true <-> starts_with_space s).
Proof.
  intros Hs. destruct s as [|c r]; [contradiction|]. simpl. split.
  - intros H. now exists c, r.
  - intros (c' & r' & E & H). now injection E as -> _.
Qed.

Lemma last_space_iff (s : str) :
  s <> [] -> (isspace (last s " "%char) = true <-> ends_with_space s).
Proof.
  intros Hs. destruct (exists_last Hs) as (r & c & ->).
  rewrite last_snoc. split.
  - intros H. now exists r, c.
  - intros (r' & c' & E & H). apply app_inj_tail in E. destruct E as [_ ->].
    assumption.
Qed.

(** The test of the code is the list of conditions of the specification. *)
Lemma needs_quote_spec (s : str) :
  s <> [] -> (needs_quote s = true <-> must_quote s).
Proof.
  intros Hs. unfold needs_quote, must_quote. cbn [existsb].
  rewrite ?orb_false_r, !orb_true_iff, !contains_In, !str_eqb_eq.
  rewrite (hd_space_iff s Hs), (last_space_iff s Hs), !startswith_char.
  unfold starts_with_quote, keyword_like. split.
  - intros [[[[[H|[H|H]]|H]|H]|[[r H]|[r H]]]|H]; try tauto.
    + do 6 right. left. exists r. now left.
    + do 6 right. left. exists r. now right.
  - intros [H|[H|[H|[H|[H|[H|[[r [H|H]]|H]]]]]]]; try tauto.
    + left. right. left. now exists r.
    + left. right. right. now exists r.
Qed.

Lemma json_dumps_length (s : str) : List.length s < List.length (json_dumps s).
Proof.
  unfold json_dumps. simpl. rewrite length_app. simpl.
  assert (H : List.length s <= List.length (flat_map json_escape_char s)).
  { induction s as [|c r IH]; simpl; [lia|]. rewrite length_app.
    assert (1 <= List.length (json_escape_char c)).
    { unfold json_escape_char.
      repeat match goal with |- context [if ?b then _ else _] => destruct b end;
        simpl; lia. }
    lia. }
  lia.
Qed.

Lemma json_dumps_neq (s : str) : json_dumps s <> s.
Proof.
  intros E. pose proof (json_dumps_length s) as H. rewrite E in H. lia.
Qed.

Lemma to_toon_primitive_quoted (s : str) :
  must_quote s -> _to_toon_primitive (PyStr s) = json_dumps s.
Proof.
  intros H. destruct s as [|c r]; [reflexivity|].
  apply needs_quote_spec in H; [|discriminate].
  cbn [_to_toon_primitive]. now rewrite H.
Qed.

Lemma to_toon_primitive_bare (s : str) :
  ~ must_quote s -> _to_toon_primitive (PyStr s) = s.
Proof.
  intros H. destruct s as [|c r]; [exfalso; apply H; now left|].
  cbn [_to_toon_primitive]. destruct (needs_quote (c :: r)) eqn:E.
  - apply needs_quote_spec in E; [contradiction|discriminate].
  - reflexivity.
Qed.

(** C4.  A text is written as the JSON literal [json.dumps] makes of it
    exactly when it is empty, holds a comma, a newline or a carriage return,
    starts or ends with white space, starts with a quote character, or is
    [null], [true] or [false] up to case; any other text is written as it
    is. *)
Theorem to_toon_primitive_quoting (s : str) :
  (_to_toon_primitive (PyStr s) = json_dumps s <-> must_quote s)
  /\ (~ must_quote s -> _to_toon_primitive (PyStr s) = s).
Proof.
  split; [split|]; try apply to_toon_primitive_quoted;
    try apply to_toon_primitive_bare.
  intros E. destruct s as [|c r]; [now left|].
  apply needs_quote_spec; [discriminate|].
  cbn [_to_toon_primitive] in E. destruct (needs_quote (c :: r));
    [reflexivity|].
  symmetry in E. now apply json_dumps_neq in E.
Qed.

(** ** JSON string literals *)

Lemma json_scan_escape (c : ascii) (r : str) :
  json_scanstring (json_escape_char c ++ r)
  = match json_scanstring r with
    | Some (d, rest) => Some (c :: d, rest)
    | None => None
    end.
Proof.
  destruct c as [b0 b1 b2 b3 b4 b5 b6 b7].
  destruct b0, b1, b2, b3, b4, b5, b6, b7; reflexivity.
Qed.

Lemma json_scan_dumps (s rest : str) :
  json_scanstring (flat_map json_escape_char s ++ dquote :: rest)
  = Some (s, rest).
Proof.
  induction s as [|c r IH]; [reflexivity|].
  cbn [flat_map]. rewrite <- app_assoc, json_scan_escape, IH. reflexivity.
Qed.

(** [json.loads] reads back what [json.dumps] wrote. *)
Lemma json_loads_dumps (s : str) : json_loads (json_dumps s) = Some s.
Proof.
  unfold json_loads, json_dumps. rewrite Ascii.eqb_refl, json_scan_dumps.
  reflexivity.
Qed.

Lemma json_dumps_shape (s : str) :
  exists body, json_dumps s = dquote :: body ++ [dquote].
Proof. now exists (flat_map json_escape_char s). Qed.

Lemma strip_quoted (body : str) :
  strip (dquote :: body ++ [dquote]) = dquote :: body ++ [dquote].
Proof.
  apply strip_id; [reflexivity|].
  change (dquote :: body ++ [dquote]) with ((dquote :: body) ++ [dquote]).
  now rewrite last_snoc.
Qed.

Lemma quoted_with_dquote (body : str) :
  quoted_with dquote (dquote :: body ++ [dquote]) = true.
Proof.
  unfold quoted_with, endswith.
  change (dquote :: body ++ [dquote]) with ((dquote :: body) ++ [dquote]).
  rewrite rev_app_distr. reflexivity.
Qed.

(** A token that [json.dumps] wrote is decoded to the text it was written
    from. *)
Lemma parse_json_dumps (s : str) :
  _parse_primitive_token (json_dumps s) = PyStr s.
Proof.
  destruct (json_dumps_shape s) as (body & E).
  unfold _parse_primitive_token. rewrite E, strip_quoted.
  rewrite quoted_with_dquote. rewrite <- E, json_loads_dumps.
  rewrite E. reflexivity.
Qed.

Lemma quoting_needed_must_quote (s : str) : quoting_needed s -> must_quote s.
Proof. unfold quoting_needed, must_quote. tauto. Qed.

(** C5.  A text that holds a comma or a newline, starts or ends with white
    space, or is [null], [true] or [false] up to case is written as a token in
    double quotes, and decoding that token gives the text back. *)
Theorem quoted_text_round_trip (s : str) :
  quoting_needed s ->
  _to_toon_primitive (PyStr s) = json_dumps s
  /\ quoted_with dquote (_to_toon_primitive (PyStr s)) = true
  /\ _parse_primitive_token (_to_toon_primitive (PyStr s)) = PyStr s.
Proof.
  intros H. apply quoting_needed_must_quote in H.
  rewrite (to_toon_primitive_quoted s H).
  split; [reflexivity|]. split; [|apply parse_json_dumps].
  destruct (json_dumps_shape s) as (body & ->). apply quoted_with_dquote.
Qed.

Lemma quoted_text_round_trip_witness :
  quoting_needed (pystr "NULL")
  /\ _parse_primitive_token (_to_toon_primitive (PyStr (pystr "NULL")))
     = PyStr (pystr "NULL").
Proof.
  assert (H : quoting_needed (pystr "NULL")).
  { do 4 right. left. reflexivity. }
  split; [exact H|].
  exact (proj2 (proj2 (quoted_text_round_trip (pystr "NULL") H))).
Defined.

(** ** Texts that read as numbers *)

(** What a text that needs no quotes looks like to the decoder. *)
Lemma bare_text (s : str) :
  ~ must_quote s ->
  strip s = s
  /\ str_eqb s [] = false
  /\ str_eqb s (pystr "null") = false
  /\ str_eqb s (pystr "true") = false
  /\ str_eqb s (pystr "false") = false
  /\ quoted_with dquote s = false
  /\ quoted_with squote s = false.
Proof.
  intros H.
  assert (Hs : s <> []) by (intros ->; apply H; now left).
  assert (Q : needs_quote s = false).
  { destruct (needs_quote s) eqn:E; [|reflexivity].
    apply (needs_quote_spec s Hs) in E. contradiction. }
  unfold needs_quote in Q. cbn [existsb] in Q.
  rewrite !orb_false_iff in Q.
  destruct Q as ((((_ & Hh) & Hl) & Hd & Hq) & Hn & Ht & Hf & _).
  split; [now apply strip_id|].
  split; [now apply str_eqb_neq|].
  assert (K : forall k, lower k = k -> str_eqb (lower s) k = false ->
                        str_eqb s k = false).
  { intros k Hk E. destruct (str_eqb s k) eqn:E'; [|reflexivity].
    apply str_eqb_eq in E'. subst s. rewrite Hk, str_eqb_refl in E.
    discriminate. }
  repeat split; try (apply K; [reflexivity|assumption]).
  - unfold quoted_with. now rewrite Hd.
  - unfold quoted_with. now rewrite Hq.
Qed.



(** ** The parser returns *)

Lemma table_rows_length (keys : list str) (row_indent : nat)
    (lines : list line) :
  List.length (snd (table_rows keys row_indent lines)) <= List.length lines.
Proof.
  induction lines as [|[indent content] rest IH]; simpl; [lia|].
  destruct (indent =? row_indent); simpl; [|lia].
  destruct (table_rows keys row_indent rest) as [rows rest']. simpl in *. lia.
Qed.

(** A branch of [parse_block] that returns. *)
Ltac parse_leaf :=
  do 2 eexists; split; [reflexivity | simpl in *; lia].

(** A branch that goes on with a call on fewer lines: the induction
    hypothesis [IH] gives what the call returns. *)
Ltac parse_call IH :=
  match goal with
  | |- context [parse_block ?f ?e ?l ?r ?a] =>
      let v := fresh "v" in
      let rest := fresh "rest" in
      let E := fresh "E" in
      let L := fresh "L" in
      destruct (IH e l r a) as (v & rest & E & L);
      [ simpl in *; lia | rewrite E; clear E; cbn iota beta ]
  end.

(** With more fuel than lines [parse_block] returns, and it hands back no
    more lines than it was given. *)
Lemma parse_block_returns (fuel : nat) :
  forall (expected_indent : nat) (lines : list line) (result : dict)
         (arr_mode : option (list value)),
    List.length lines < fuel ->
    exists v rest,
      parse_block fuel expected_indent lines result arr_mode = Some (v, rest)
      /\ List.length rest <= List.length lines.
Proof.
  induction fuel as [|fuel IH]; intros e lines result arr Hlen; [lia|].
  destruct lines as [|[indent content] rest]; [parse_leaf|].
  cbn [parse_block].
  destruct ((indent <? e) || (e <? indent)); [parse_leaf|].
  destruct (str_eqb (strip content) (pystr "[]")).
  { destruct (is_empty_state result arr); [parse_leaf|].
    parse_call IH. parse_leaf. }
  destruct (str_eqb (strip content) (pystr "{}")).
  { destruct (is_empty_state result arr); [parse_leaf|].
    parse_call IH. parse_leaf. }
  destruct (startswith content (pystr "- ") || str_eqb content (pystr "-")).
  { destruct (str_eqb content (pystr "-")).
    - destruct rest as [|[next_indent next] rest].
      + parse_call IH. parse_leaf.
      + destruct (indent <? next_indent).
        * parse_call IH. parse_call IH. parse_leaf.
        * parse_call IH. parse_leaf.
    - match goal with |- context [if ?b then _ else _] => destruct b end;
        parse_call IH; parse_leaf. }
  destruct (find_colon content 0 false None) as [colon_pos|].
  2:{ destruct (is_empty_state result arr); [parse_leaf|].
      destruct arr; parse_call IH; parse_leaf. }
  cbv zeta.
  destruct (str_eqb (strip (skipn (colon_pos + 1) content)) []).
  - match goal with |- context [if ?b then _ else _] => destruct b end.
    + pose proof (table_rows_length
                    (header_keys (strip (firstn colon_pos content)))
                    (e + 1) rest) as Hrows.
      destruct (table_rows (header_keys (strip (firstn colon_pos content)))
                  (e + 1) rest) as [rows rest'].
      parse_call IH. parse_leaf.
    + parse_call IH. parse_call IH. parse_leaf.
  - match goal with |- context [if ?b then _ else _] => destruct b end;
      parse_call IH; parse_leaf.
Qed.

(** [loads] returns a value for every text. *)
Lemma loads_total (toon_str : str) : exists v, loads toon_str = Some v.
Proof.
  unfold loads.
  destruct (parse_block_returns (S (List.length (preprocess toon_str))) 0
              (preprocess toon_str) [] None) as (v & rest & E & _); [lia|].
  rewrite E. now exists v.
Qed.

(** On every text the top-level call of [parse_block] returns within the
    fuel [loads] gives it, and [loads] answers the value it returned. *)
Theorem loads_terminates (toon_str : str) :
  exists v rest,
    parse_block (S (List.length (preprocess toon_str))) 0
      (preprocess toon_str) [] None = Some (v, rest)
    /\ loads toon_str = Some v.
Proof.
  destruct (parse_block_returns (S (List.length (preprocess toon_str))) 0
              (preprocess toon_str) [] None) as (v & rest & E & _); [lia|].
  exists v, rest. split; [exact E|]. unfold loads. now rewrite E.
Qed.

(** ** Blank input *)

Lemma preprocess_blank (s : str) :
  Forall blank (splitlines s) -> preprocess s = [].
Proof.
  intros H. unfold preprocess. rewrite filter_nothing; [reflexivity|].
  eapply Forall_impl; [|exact H]. intros ln B. unfold blank in B.
  now rewrite B.
Qed.

Lemma loads_no_lines (s : str) :
  preprocess s = [] -> loads s = Some (VDict []).
Proof. intros H. unfold loads. now rewrite H. Qed.

(** C10.  A text whose lines are all blank, the empty text among them,
    decodes to the empty mapping. *)
Theorem loads_blank (s : str) :
  Forall blank (splitlines s) -> loads s = Some (VDict []).
Proof. intros H. now apply loads_no_lines, preprocess_blank. Qed.

Lemma loads_blank_witness :
  Forall blank (splitlines (pystr "   " ++ [newline; newline; "009"%char]))
  /\ loads (pystr "   " ++ [newline; newline; "009"%char]) = Some (VDict [])
  /\ loads [] = Some (VDict []).
Proof.
  assert (H : Forall blank
                (splitlines (pystr "   " ++ [newline; newline; "009"%char]))).
  { repeat constructor. }
  split; [exact H|]. split; [exact (loads_blank _ H)|].
  apply loads_blank. constructor.
Defined.

Lemma splitlines_aux_spaces (n : nat) :
  forall s cur : str,
    List.length s <= n ->
    forallb isspace s = true -> forallb isspace cur = true ->
    Forall blank (splitlines_aux s cur).
Proof.
  induction n as [|n IH]; intros s cur Hn Hs Hc;
    assert (Hcur : blank (rev cur))
      by (apply blank_spaces; now apply forallb_rev_true).
  - destruct s as [|c r]; [|simpl in Hn; lia].
    cbn [splitlines_aux]. destruct cur; constructor; [assumption|constructor].
  - destruct s as [|c r].
    { cbn [splitlines_aux]. destruct cur; constructor;
        [assumption|constructor]. }
    cbn [forallb] in Hs. apply andb_true_iff in Hs. destruct Hs as [Hc0 Hr].
    cbn [List.length] in Hn.
    cbn [splitlines_aux]. destruct (is_linebreak c).
    + destruct r as [|d r']; [now repeat constructor|].
      destruct (Ascii.eqb c creturn && Ascii.eqb d newline).
      * constructor; [exact Hcur|]. apply IH; [| |reflexivity].
        -- cbn [List.length] in Hn. lia.
        -- cbn [forallb] in Hr. now apply andb_true_iff in Hr.
      * constructor; [exact Hcur|]. apply IH; [lia|assumption|reflexivity].
    + apply IH; [lia|exact Hr|]. cbn [forallb]. now rewrite Hc0, Hc.
Qed.

(** A text of white space only has blank lines only. *)
Lemma splitlines_spaces (s : str) :
  forallb isspace s = true -> Forall blank (splitlines s).
Proof. intros H. now apply (splitlines_aux_spaces (List.length s)). Qed.

(** A text of white space only decodes to the empty mapping. *)
Theorem loads_whitespace (s : str) :
  forallb isspace s = true -> loads s = Some (VDict []).
Proof.
  intros H. now apply loads_no_lines, preprocess_blank, splitlines_spaces.
Qed.

Lemma loads_whitespace_witness :
  loads (pystr " " ++ [creturn; newline; "009"%char; "160"%char])
  = Some (VDict []).
Proof. apply loads_whitespace. reflexivity. Defined.

(** ** The table detector *)

Lemma str_leb_total (a b : str) : str_leb a b = false -> str_leb b a = true.
Proof.
  revert b. induction a as [|x a IH]; intros [|y b]; simpl; try congruence.
  destruct (ord x <? ord y) eqn:Exy; [discriminate|].
  destruct (ord y <? ord x) eqn:Eyx; [reflexivity|]. apply IH.
Qed.

Lemma str_leb_trans (a b c : str) :
  str_leb a b = true -> str_leb b c = true -> str_leb a c = true.
Proof.
  revert b c. induction a as [|x a IH]; intros [|y b] [|z c]; simpl;
    try congruence.
  destruct (ord x <? ord y) eqn:Exy, (ord y <? ord x) eqn:Eyx,
           (ord y <? ord z) eqn:Eyz, (ord z <? ord y) eqn:Ezy,
           (ord x <? ord z) eqn:Exz, (ord z <? ord x) eqn:Ezx;
    try congruence;
    repeat match goal with
           | H : (_ <? _) = true |- _ => apply Nat.ltb_lt in H
           | H : (_ <? _) = false |- _ => apply Nat.ltb_ge in H
           end; try lia.
  apply IH.
Qed.

Lemma insert_sorted_In (k x : str) (l : list str) :
  In x (insert_sorted k l) <-> x = k \/ In x l.
Proof.
  induction l as [|h t IH]; simpl.
  - intuition congruence.
  - destruct (str_leb k h); simpl; rewrite ?IH; intuition congruence.
Qed.

Lemma sorted_In (x : str) (l : list str) : In x (sorted l) <-> In x l.
Proof.
  induction l as [|h t IH]; simpl; [reflexivity|].
  rewrite insert_sorted_In, IH. intuition congruence.
Qed.

Lemma insert_sorted_Sorted (k : str) (l : list str) :
  Sorted str_le l -> Sorted str_le (insert_sorted k l).
Proof.
  induction 1 as [|h t Hs IH Hh]; simpl.
  - repeat constructor.
  - destruct (str_leb k h) eqn:E.
    + constructor; [now constructor|]. now constructor.
    + constructor; [assumption|].
      apply str_leb_total in E.
      destruct t as [|h' t']; simpl.
      * now constructor.
      * destruct (str_leb k h'); constructor; [assumption|].
        now inversion Hh.
Qed.

Lemma sorted_Sorted (l : list str) : Sorted str_le (sorted l).
Proof.
  induction l as [|h t IH]; simpl; [constructor|].
  now apply insert_sorted_Sorted.
Qed.

Lemma insert_sorted_NoDup (k : str) (l : list str) :
  ~ In k l -> NoDup l -> NoDup (insert_sorted k l).
Proof.
  induction l as [|h t IH]; simpl; intros Hk Hl.
  - repeat constructor. intros [].
  - destruct (str_leb k h).
    + constructor; [simpl; tauto|assumption].
    + inversion Hl as [|? ? Hh Ht]; subst. constructor.
      * rewrite insert_sorted_In. intros [->|H]; tauto.
      * apply IH; tauto.
Qed.

Lemma sorted_NoDup (l : list str) : NoDup l -> NoDup (sorted l).
Proof.
  induction 1 as [|h t Hh Ht IH]; simpl; [constructor|].
  apply insert_sorted_NoDup; [now rewrite sorted_In|assumption].
Qed.

Lemma key_set_In (k : str) (l : list str) : In k (key_set l) <-> In k l.
Proof. apply nodup_In. Qed.

Lemma set_eqb_spec (s t : list str) :
  set_eqb s t = true <-> forall k, In k s <-> In k t.
Proof.
  unfold set_eqb. rewrite andb_true_iff, !forallb_forall. split.
  - intros [H1 H2] k. split; intros H.
    + apply H1 in H. apply existsb_exists in H. destruct H as (x & Hx & E).
      apply str_eqb_eq in E. now subst.
    + apply H2 in H. apply existsb_exists in H. destruct H as (x & Hx & E).
      apply str_eqb_eq in E. now subst.
  - intros H. split; intros k Hk; apply existsb_exists; exists k;
      (split; [now apply H|apply str_eqb_refl]).
Qed.

Lemma keys_eqb_eq (a b : list str) : keys_eqb a b = true <-> a = b.
Proof.
  unfold keys_eqb.
  destruct (list_eq_dec (list_eq_dec ascii_dec) a b); split; congruence.
Qed.

Lemma all_mappings_forallb (l : list value) :
  forallb is_dict l = true <-> all_mappings l.
Proof.
  rewrite forallb_forall. unfold all_mappings. split; intros H x Hx.
  - specialize (H x Hx). destruct x; try discriminate. now eexists.
  - destruct (H x Hx) as (items & ->). reflexivity.
Qed.

Lemma key_sets_forallb (first : value) (l : list value) :
  forallb (fun s => set_eqb s (key_set (keys_of first)))
          (map (fun d => key_set (keys_of d)) l) = true
  <-> forall x, In x l -> same_key_set x first.
Proof.
  rewrite forallb_forall. unfold same_key_set. split.
  - intros H x Hx k.
    specialize (H _ (in_map (fun d => key_set (keys_of d)) _ _ Hx)).
    cbv beta in H.
    rewrite set_eqb_spec in H.
    rewrite <- (key_set_In k (keys_of x)), <- (key_set_In k (keys_of first)).
    apply H.
  - intros H s Hs. apply in_map_iff in Hs. destruct Hs as (x & <- & Hx).
    apply set_eqb_spec. intros k. rewrite !key_set_In. now apply H.
Qed.

Lemma key_order_forallb (first : value) (l : list value) :
  forallb (fun d => keys_eqb (keys_of d) (keys_of first)) l = true
  <-> forall x, In x l -> keys_of x = keys_of first.
Proof.
  rewrite forallb_forall. split; intros H x Hx.
  - now apply keys_eqb_eq, H.
  - now apply keys_eqb_eq, H.
Qed.

Lemma equal_key_sets_first (first : value) (rest : list value) :
  (forall x, In x (first :: rest) -> same_key_set x first)
  <-> equal_key_sets (first :: rest).
Proof.
  unfold equal_key_sets, same_key_set. split.
  - intros H x y Hx Hy k. rewrite (H x Hx k), (H y Hy k). reflexivity.
  - intros H x Hx. apply H; [assumption|now left].
Qed.

Lemma same_key_order_first (first : value) (rest : list value) :
  (forall x, In x (first :: rest) -> keys_of x = keys_of first)
  <-> same_key_order (first :: rest).
Proof.
  unfold same_key_order. split.
  - intros H x y Hx Hy. rewrite (H x Hx), (H y Hy). reflexivity.
  - intros H x Hx. apply H; [assumption|now left].
Qed.

Lemma sorted_key_set_first (first : value) :
  sorted_key_set (sorted (key_set (keys_of first))) first.
Proof.
  repeat split.
  - apply Sorted_StronglySorted; [|apply sorted_Sorted].
    intros a b c. apply str_leb_trans.
  - apply sorted_NoDup, NoDup_nodup.
  - rewrite sorted_In, key_set_In. tauto.
  - rewrite sorted_In, key_set_In. tauto.
Qed.

(** C6.  The detector answers not uniform for the empty sequence and for a
    sequence with an element that is no mapping; it answers uniform exactly
    when the sequence is not empty and its elements are mappings with equal
    key sets; the keys it returns are then the common insertion order when
    all elements list their keys in one order, and the key set sorted in
    increasing order otherwise. *)
Theorem all_dicts_uniform_spec (l : list value) :
  (l = [] \/ ~ all_mappings l -> _all_dicts_uniform l = (false, None))
  /\ (fst (_all_dicts_uniform l) = true
      <-> l <> [] /\ all_mappings l /\ equal_key_sets l)
  /\ (fst (_all_dicts_uniform l) = true -> same_key_order l ->
      forall d, In d l -> snd (_all_dicts_uniform l) = Some (keys_of d))
  /\ (fst (_all_dicts_uniform l) = true -> ~ same_key_order l ->
      exists ks, snd (_all_dicts_uniform l) = Some ks
                 /\ forall d, In d l -> sorted_key_set ks d)
  /\ (fst (_all_dicts_uniform l) = false ->
      snd (_all_dicts_uniform l) = None).
Proof.
  destruct l as [|first rest].
  { simpl. repeat split; try discriminate; tauto. }
  unfold _all_dicts_uniform.
  pose proof (all_mappings_forallb (first :: rest)) as Hm.
  pose proof (key_sets_forallb first (first :: rest)) as Hs.
  pose proof (key_order_forallb first (first :: rest)) as Ho.
  rewrite equal_key_sets_first in Hs. rewrite same_key_order_first in Ho.
  assert (Hne : first :: rest <> []) by discriminate.
  destruct (forallb is_dict (first :: rest)); cbn [negb].
  2:{ cbn [fst snd].
      refine (conj _ (conj _ (conj _ (conj _ _)))); try discriminate; auto.
      split; [discriminate|]. intros (_ & H & _). apply Hm in H. discriminate. }
  assert (Hall : all_mappings (first :: rest)) by now apply Hm.
  destruct (forallb _ (map _ (first :: rest))).
  2:{ cbn [fst snd].
      refine (conj _ (conj _ (conj _ (conj _ _)))); try discriminate; auto.
      split; [discriminate|]. intros (_ & _ & H). apply Hs in H. discriminate. }
  assert (Hsets : equal_key_sets (first :: rest)) by now apply Hs.
  destruct (forallb _ (first :: rest)); cbn [fst snd].
  - assert (Hord : same_key_order (first :: rest)) by now apply Ho.
    refine (conj _ (conj _ (conj _ (conj _ _)))); try discriminate.
    + intros [H|H]; [discriminate|contradiction].
    + split; auto.
    + intros _ _ d Hd. f_equal. apply Hord; [now left|assumption].
    + intros _ H. contradiction.
  - refine (conj _ (conj _ (conj _ (conj _ _)))); try discriminate.
    + intros [H|H]; [discriminate|contradiction].
    + split; auto.
    + intros _ H. apply Ho in H. discriminate.
    + intros _ _. eexists. split; [reflexivity|]. intros d Hd.
      destruct (sorted_key_set_first first) as (S1 & S2 & S3).
      repeat split; try assumption.
      * intros H. apply S3 in H.
        now apply (Hsets d first Hd (or_introl eq_refl)).
      * intros H. apply S3.
        now apply (Hsets d first Hd (or_introl eq_refl)).
Qed.

(** ** Lines *)

Lemma splitlines_aux_line (ln rest cur : str) :
  no_linebreak ln ->
  splitlines_aux (ln ++ newline :: rest) cur
  = (rev cur ++ ln) :: splitlines_aux rest [].
Proof.
  unfold no_linebreak. revert cur.
  induction ln as [|c ln IH]; intros cur H.
  - rewrite app_nil_r. cbn [app splitlines_aux].
    destruct rest as [|d rest']; reflexivity.
  - cbn [forallb] in H. apply andb_true_iff in H. destruct H as [Hc Hl].
    apply negb_true_iff in Hc. cbn [app splitlines_aux]. rewrite Hc.
    rewrite (IH (c :: cur) Hl). cbn [rev]. now rewrite <- app_assoc.
Qed.

Lemma no_linebreak_no_newline (ln : str) :
  no_linebreak ln -> rstrip_nl ln = ln.
Proof.
  intros H. unfold rstrip_nl.
  destruct (rev ln) as [|c r] eqn:E.
  - simpl. apply (f_equal (@rev ascii)) in E. rewrite rev_involutive in E.
    now rewrite E.
  - assert (Hc : In c ln) by (apply in_rev; rewrite E; now left).
    unfold no_linebreak in H. rewrite forallb_forall in H.
    specialize (H c Hc). apply negb_true_iff in H.
    cbn [drop_newlines]. destruct (Ascii.eqb c newline) eqn:En.
    + apply Ascii.eqb_eq in En. subst c. discriminate H.
    + rewrite <- E. apply rev_involutive.
Qed.

Lemma no_linebreak_app (a b : str) :
  no_linebreak a -> no_linebreak b -> no_linebreak (a ++ b).
Proof.
  unfold no_linebreak. intros Ha Hb. rewrite forallb_app. now rewrite Ha, Hb.
Qed.

Lemma no_linebreak_pad (e : nat) : no_linebreak (repeat_str INDENT_STR e).
Proof.
  induction e as [|e IH]; [reflexivity|].
  cbn [repeat_str]. now apply no_linebreak_app.
Qed.

(** The first line of a text, when it is not blank, is the first line that
    [loads] reads. *)
Lemma preprocess_line (ln rest : str) :
  no_linebreak ln -> strip ln <> [] ->
  preprocess (ln ++ newline :: rest)
  = (_count_leading_indent ln,
     skipn (_count_leading_indent ln * List.length INDENT_STR) ln)
    :: preprocess rest.
Proof.
  intros Hl Hs. unfold preprocess, splitlines.
  rewrite (splitlines_aux_line ln rest [] Hl). cbn [rev app filter].
  rewrite (str_eqb_neq _ _ Hs). cbn [negb map].
  now rewrite (no_linebreak_no_newline ln Hl).
Qed.

Lemma count_leading_indent_pad (e : nat) (c : ascii) (content : str) :
  Ascii.eqb c " "%char = false ->
  _count_leading_indent (repeat_str INDENT_STR e ++ c :: content) = e.
Proof.
  intros Hc. induction e as [|e IH].
  - cbn [repeat_str app]. destruct content as [|d content'];
      cbn [_count_leading_indent]; [reflexivity|]. now rewrite Hc.
  - cbn [repeat_str]. rewrite <- app_assoc. unfold INDENT_STR at 1.
    cbn [pystr String.list_ascii_of_string app _count_leading_indent].
    cbn [Ascii.eqb Bool.eqb andb]. now rewrite IH.
Qed.

Lemma skipn_pad (e : nat) (content : str) :
  skipn (e * List.length INDENT_STR) (repeat_str INDENT_STR e ++ content)
  = content.
Proof.
  induction e as [|e IH]; [reflexivity|].
  cbn [repeat_str]. rewrite <- app_assoc. exact IH.
Qed.

Lemma lstrip_pad (e : nat) (s : str) :
  lstrip (repeat_str INDENT_STR e ++ s) = lstrip s.
Proof.
  induction e as [|e IH]; [reflexivity|].
  cbn [repeat_str]. rewrite <- app_assoc. exact IH.
Qed.

(** An indented line whose content has neither white space at its ends nor a
    line boundary inside is read as its depth and its content. *)
Lemma preprocess_indented (e : nat) (c : ascii) (content rest : str) :
  no_linebreak (c :: content) ->
  isspace c = false -> isspace (last (c :: content) " "%char) = false ->
  preprocess (repeat_str INDENT_STR e ++ (c :: content) ++ newline :: rest)
  = (e, c :: content) :: preprocess rest.
Proof.
  intros Hl Hc Hlast.
  assert (Hsp : Ascii.eqb c " "%char = false).
  { destruct (Ascii.eqb c " "%char) eqn:E; [|reflexivity].
    apply Ascii.eqb_eq in E. subst c. discriminate Hc. }
  rewrite app_assoc, preprocess_line.
  - now rewrite count_leading_indent_pad, skipn_pad.
  - apply no_linebreak_app; [apply no_linebreak_pad|assumption].
  - unfold strip. rewrite lstrip_pad, (lstrip_nonspace _ _ Hc).
    destruct (exists_last (l := c :: content)) as (r' & d & E);
      [discriminate|].
    rewrite E in Hlast |- *. rewrite last_snoc in Hlast.
    rewrite (rstrip_nonspace _ _ Hlast). now destruct r'.
Qed.

Lemma rstrip_nl_line (body : str) (c : ascii) :
  Ascii.eqb c newline = false ->
  rstrip_nl (body ++ [c] ++ [newline]) = body ++ [c].
Proof.
  intros H. unfold rstrip_nl. rewrite app_assoc, !rev_app_distr.
  cbn [rev app drop_newlines]. rewrite Ascii.eqb_refl, H.
  cbn [rev]. now rewrite rev_involutive.
Qed.

(** ** Identifier characters *)

Lemma xid_continue_plain (c : ascii) :
  is_xid_continue c = true -> plain_char c = true.
Proof.
  assert (B : implb (is_xid_continue c) (plain_char c) = true).
  { destruct c as [b0 b1 b2 b3 b4 b5 b6 b7].
    destruct b0, b1, b2, b3, b4, b5, b6, b7; reflexivity. }
  intros H. now rewrite H in B.
Qed.

(** The characters of an identifier are neither white space nor any of the
    marks the parser looks for. *)
Lemma plain_char_spec (c : ascii) :
  plain_char c = true ->
  isspace c = false /\ is_linebreak c = false /\ is_quote c = false
  /\ Ascii.eqb c ":"%char = false /\ Ascii.eqb c "["%char = false
  /\ Ascii.eqb c "{"%char = false /\ Ascii.eqb c "-"%char = false
  /\ Ascii.eqb c newline = false.
Proof.
  unfold plain_char. rewrite !andb_true_iff, !negb_true_iff. tauto.
Qed.

Lemma isidentifier_chars (k : str) : isidentifier k = true -> plain_key k.
Proof.
  destruct k as [|c r]; [discriminate|]. simpl. intros H.
  apply andb_true_iff in H. destruct H as [Hc Hr].
  split; [discriminate|]. cbn [forallb]. rewrite Hr, andb_true_r.
  unfold is_xid_continue. apply orb_true_iff in Hc. destruct Hc as [->|Hc].
  - reflexivity.
  - apply Ascii.eqb_eq in Hc. subst c. reflexivity.
Qed.

Lemma find_colon_plain (k rest : str) (i : nat) :
  forallb is_xid_continue k = true ->
  find_colon (k ++ ":"%char :: rest) i false None = Some (i + List.length k).
Proof.
  revert i. induction k as [|c k IH]; intros i H.
  - cbn. f_equal. lia.
  - cbn [forallb] in H. apply andb_true_iff in H. destruct H as [Hc Hk].
    destruct (plain_char_spec c (xid_continue_plain c Hc))
      as (_ & _ & Hq & Hcol & _).
    cbn [app find_colon]. rewrite Hq, Hcol. cbn [andb].
    rewrite (IH (S i) Hk). cbn [List.length]. f_equal. lia.
Qed.

Lemma contains_plain (k : str) (c : ascii) :
  forallb is_xid_continue k = true -> is_xid_continue c = false ->
  contains c k = false.
Proof.
  intros Hk Hc. unfold contains.
  destruct (existsb (Ascii.eqb c) k) eqn:E; [|reflexivity].
  apply existsb_exists in E. destruct E as (x & Hx & E).
  apply Ascii.eqb_eq in E. subst x.
  rewrite forallb_forall in Hk. rewrite (Hk c Hx) in Hc. discriminate.
Qed.

(** ** Mappings under a bare key *)

Section BareKey.

Variable k : str.
Hypothesis key_is_identifier : isidentifier k = true.

Lemma key_is_plain : plain_key k.
Proof. now apply isidentifier_chars. Qed.

Lemma key_chars : forallb is_xid_continue k = true.
Proof. exact (proj2 key_is_plain). Qed.

Lemma key_ends :
  exists c r, k = c :: r /\ plain_char c = true
              /\ isspace (last k " "%char) = false.
Proof.
  destruct key_is_plain as [Hne Hk]. destruct k as [|c r]; [contradiction|].
  exists c, r. split; [reflexivity|].
  rewrite forallb_forall in Hk.
  split; [apply xid_continue_plain, Hk; now left|].
  destruct (exists_last (l := c :: r)) as (r' & d & E); [discriminate|].
  rewrite E, last_snoc.
  apply (plain_char_spec d), xid_continue_plain, Hk. rewrite E.
  apply in_or_app. right. now left.
Qed.

Lemma strip_key : strip k = k.
Proof.
  destruct key_ends as (c & r & E & Hc & Hl).
  apply strip_id; [|assumption]. rewrite E. apply (plain_char_spec c Hc).
Qed.

Lemma strip_key_colon : strip (k ++ [":"%char]) = k ++ [":"%char].
Proof.
  destruct key_ends as (c & r & E & Hc & _).
  apply strip_id.
  - rewrite E. apply (plain_char_spec c Hc).
  - now rewrite last_snoc.
Qed.

Lemma no_linebreak_key_colon : no_linebreak (k ++ [":"%char]).
Proof.
  apply no_linebreak_app; [|reflexivity].
  pose proof key_chars as Hk.
  unfold no_linebreak. rewrite forallb_forall in *. intros c Hc.
  apply negb_true_iff. apply (plain_char_spec c), xid_continue_plain, Hk, Hc.
Qed.

(** A line [key:] is read as its depth and its content. *)
Lemma preprocess_key_line (i : nat) (rest : str) :
  preprocess (repeat_str INDENT_STR i ++ (k ++ [":"%char]) ++ newline :: rest)
  = (i, k ++ [":"%char]) :: preprocess rest.
Proof.
  pose proof no_linebreak_key_colon as Hl.
  destruct key_ends as (c & r & E & Hc & _). rewrite E in *.
  cbn [app] in *. apply preprocess_indented.
  - exact Hl.
  - apply (plain_char_spec c Hc).
  - change (c :: r ++ [":"%char]) with ((c :: r) ++ [":"%char]).
    now rewrite last_snoc.
Qed.

(** A line [key:] opens a nested block, whose value is stored under the
    key. *)
Lemma parse_block_key_line (fuel e : nat) (rest : list line)
    (result : dict) (arr_mode : option (list value)) :
  parse_block (S fuel) e ((e, k ++ [":"%char]) :: rest) result arr_mode
  = match parse_block fuel (e + 1) rest [] None with
    | Some (nested, rest') =>
        parse_block fuel e rest' (dict_set k nested result) arr_mode
    | None => None
    end.
Proof.
  pose proof key_chars as Hall.
  destruct key_ends as (c & r & Ek & Hc & _).
  destruct (plain_char_spec c Hc) as (_ & _ & _ & _ & Hb & Hcb & Hd & _).
  cbn [parse_block]. rewrite Nat.ltb_irrefl. cbn [orb].
  rewrite strip_key_colon.
  assert (E1 : str_eqb (k ++ [":"%char]) (pystr "[]") = false).
  { apply str_eqb_neq. rewrite Ek. intros E. injection E as E _.
    subst c. discriminate Hb. }
  assert (E2 : str_eqb (k ++ [":"%char]) (pystr "{}") = false).
  { apply str_eqb_neq. rewrite Ek. intros E. injection E as E _.
    subst c. discriminate Hcb. }
  assert (E3 : startswith (k ++ [":"%char]) (pystr "- ") = false).
  { rewrite Ek. cbn [startswith pystr String.list_ascii_of_string app].
    rewrite Ascii.eqb_sym, Hd. reflexivity. }
  assert (E4 : str_eqb (k ++ [":"%char]) (pystr "-") = false).
  { apply str_eqb_neq. rewrite Ek. intros E. injection E as E _.
    subst c. discriminate Hd. }
  rewrite E1, E2, E3, E4. cbn [orb].
  rewrite (find_colon_plain k [] 0 Hall). cbn [Nat.add].
  rewrite firstn_app, firstn_all, Nat.sub_diag, firstn_O, app_nil_r.
  rewrite strip_key.
  replace (skipn (List.length k + 1) (k ++ [":"%char])) with (@nil ascii).
  2:{ rewrite skipn_all2; [reflexivity|]. rewrite length_app. simpl. lia. }
  cbn [strip lstrip rstrip rev]. rewrite str_eqb_refl.
  rewrite (contains_plain k "["%char Hall eq_refl). cbn [andb].
  reflexivity.
Qed.

(** A mapping with the one key [k] and a container under it: the header line
    [k:], then the value one level deeper. *)
Lemma dumps_single_key (v : value) (i : nat) :
  _is_primitive v = false ->
  dumps (VDict [(k, v)]) None i
  = repeat_str INDENT_STR i ++ (k ++ [":"%char])
      ++ newline :: rstrip_nl (dumps v None (i + 1)) ++ [newline].
Proof.
  intros Hv.
  cbn [dumps named flat_map fst snd app join].
  unfold _escape_header_key. rewrite key_is_identifier.
  destruct v as [x|items|items]; [discriminate| |];
    cbn [app join pystr String.list_ascii_of_string];
    rewrite <- !app_assoc; reflexivity.
Qed.

Lemma nested_text_last (n i : nat) :
  exists body, nested_text k n i = body ++ ["}"%char].
Proof.
  revert i. induction n as [|n IH]; intros i.
  - exists (repeat_str INDENT_STR i ++ ["{"%char]).
    cbn [nested_text]. now rewrite <- app_assoc.
  - destruct (IH (S i)) as (body & E). cbn [nested_text]. rewrite E.
    exists (repeat_str INDENT_STR i ++ (k ++ [":"%char]) ++ newline :: body).
    now rewrite <- !app_assoc.
Qed.

Lemma rstrip_nl_nested_text (n i : nat) :
  rstrip_nl (nested_text k n i ++ [newline]) = nested_text k n i.
Proof.
  destruct (nested_text_last n i) as (body & ->).
  rewrite <- app_assoc. now apply rstrip_nl_line.
Qed.

(** The text of a nested mapping: one line [k:] per level, each one level
    deeper than the one before, then the empty mapping. *)
Lemma dumps_nested_mapping (n i : nat) :
  dumps (nested_mapping k n) None i = nested_text k n i ++ [newline].
Proof.
  revert i. induction n as [|n IH]; intros i.
  - cbn [nested_mapping dumps named nested_text]. now rewrite <- app_assoc.
  - cbn [nested_mapping nested_text].
    rewrite dumps_single_key by now destruct n.
    replace (i + 1) with (S i) by lia.
    rewrite IH, rstrip_nl_nested_text. rewrite <- !app_assoc. reflexivity.
Qed.

Lemma preprocess_nested_text (n i : nat) :
  preprocess (nested_text k n i ++ [newline]) = nested_lines k n i.
Proof.
  revert i. induction n as [|n IH]; intros i.
  - cbn [nested_text nested_lines]. rewrite <- app_assoc.
    change (pystr "{}" ++ [newline])
      with (("{"%char :: ["}"%char]) ++ newline :: []).
    rewrite preprocess_indented; reflexivity.
  - cbn [nested_text nested_lines]. rewrite <- !app_assoc.
    cbn [app]. rewrite <- (IH (S i)).
    rewrite <- (preprocess_key_line i). rewrite <- !app_assoc.
    reflexivity.
Qed.

Lemma nested_lines_length (n i : nat) :
  List.length (nested_lines k n i) = S n.
Proof.
  revert i. induction n as [|n IH]; intros i; [reflexivity|].
  cbn [nested_lines List.length]. now rewrite IH.
Qed.

Hypothesis key_is_not_reserved : k <> pystr "_table".

Lemma block_result_single (v : value) :
  block_result [(k, v)] None = VDict [(k, v)].
Proof.
  unfold block_result, dict_mem. cbn [existsb fst List.length].
  now rewrite (str_eqb_neq _ _ key_is_not_reserved).
Qed.




End BareKey.

(** ** Empty containers *)




(** ** Nesting depth *)

Lemma depth_nested_mapping (k : str) (n : nat) :
  depth (nested_mapping k n) = S n.
Proof.
  induction n as [|n IH]; [reflexivity|].
  cbn [nested_mapping depth fold_right snd]. rewrite IH. reflexivity.
Qed.

Lemma nested_mapping_deep (max_depth : nat) :
  max_depth < depth (nested_mapping (pystr "lvl") max_depth).
Proof. rewrite depth_nested_mapping. lia. Qed.

(** *** The call stack agrees with the functions *)

Lemma collect_map_cases {A : Type} (f : A -> outcome (list str))
    (g : A -> list str) (l : list A) :
  (forall x, In x l -> f x = Returned (g x) \/ f x = RecursionError) ->
  collect (map f l) = Returned (flat_map g l)
  \/ collect (map f l) = RecursionError.
Proof.
  induction l as [|x l IH]; intros H; [now left|].
  cbn [map collect flat_map].
  destruct (H x (or_introl eq_refl)) as [E|E]; rewrite E; [|now right].
  destruct IH as [E'|E']; [intros y Hy; apply H; now right| |];
    rewrite E'; [now left|now right].
Qed.

Lemma collect_map_all {A : Type} (f : A -> outcome (list str))
    (g : A -> list str) (l : list A) :
  (forall x, In x l -> f x = Returned (g x)) ->
  collect (map f l) = Returned (flat_map g l).
Proof.
  induction l as [|x l IH]; intros H; [reflexivity|].
  cbn [map collect flat_map]. rewrite (H x (or_introl eq_refl)).
  rewrite IH; [reflexivity|]. intros y Hy. apply H. now right.
Qed.

(** With a bounded stack [dumps] returns what it returns without the bound,
    or raises. *)
Lemma dumps_stack_cases (frames : nat) :
  forall (obj : value) (name : option str) (indent : nat),
    dumps_stack frames obj name indent = Returned (dumps obj name indent)
    \/ dumps_stack frames obj name indent = RecursionError.
Proof.
  induction frames as [|room IH]; intros obj name indent; [now right|].
  destruct obj as [x|items|lst].
  - cbn [dumps_stack dumps]. destruct (named name); now left.
  - destruct items as [|kv items].
    + cbn [dumps_stack dumps]. destruct (named name); now left.
    + cbn [dumps_stack dumps].
      match goal with
      | |- context [collect ?m] =>
          match goal with
          | |- context [flat_map ?g ?l] =>
              assert (Hc : collect m = Returned (flat_map g l)
                           \/ collect m = RecursionError);
              [apply collect_map_cases
              |destruct Hc as [E|E]; rewrite E; [now left|now right]]
          end
      end.
      intros x _. cbv beta. destruct (snd x) as [y|d|d]; [now left| |].
      * destruct (IH (VDict d) None (indent + 1)) as [E|E]; rewrite E;
          [now left|now right].
      * destruct (IH (VList d) None (indent + 1)) as [E|E]; rewrite E;
          [now left|now right].
  - destruct lst as [|item lst].
    + cbn [dumps_stack dumps]. destruct (named name); now left.
    + cbn [dumps_stack dumps].
      destruct (_all_dicts_uniform (item :: lst)) as [uniform keys].
      match goal with
      | |- context [if ?b then _ else _] => destruct b; [now left|]
      end.
      destruct (forallb _is_primitive (item :: lst)).
      { destruct (named name); now left. }
      match goal with
      | |- context [collect ?m] =>
          match goal with
          | |- context [flat_map ?g ?l] =>
              assert (Hc : collect m = Returned (flat_map g l)
                           \/ collect m = RecursionError);
              [apply collect_map_cases
              |destruct Hc as [E|E]; rewrite E; [now left|now right]]
          end
      end.
      intros x _. cbv beta. destruct x as [y|d|d]; [now left| |];
        match goal with
        | |- context [dumps_stack room ?v ?n ?i] =>
            destruct (IH v n i) as [E|E]; rewrite E; [now left|now right]
        end.
Qed.

Lemma depth_entry (kv : str * value) (items : dict) :
  In kv items ->
  depth (snd kv)
  <= fold_right (fun kv d => Nat.max (depth (snd kv)) d) 0 items.
Proof.
  induction items as [|a items IH]; intros H; [destruct H|].
  cbn [fold_right]. destruct H as [->|H]; [lia|].
  specialize (IH H). lia.
Qed.

Lemma depth_item (x : value) (lst : list value) :
  In x lst ->
  depth x <= fold_right (fun x d => Nat.max (depth x) d) 0 lst.
Proof.
  induction lst as [|a lst IH]; intros H; [destruct H|].
  cbn [fold_right]. destruct H as [->|H]; [lia|].
  specialize (IH H). lia.
Qed.

(** A stack with room for one call of [dumps] per level of the value is
    enough: [dumps] returns. *)
Lemma dumps_stack_enough (frames : nat) :
  forall (obj : value) (name : option str) (indent : nat),
    0 < frames -> depth obj <= frames ->
    dumps_stack frames obj name indent = Returned (dumps obj name indent).
Proof.
  induction frames as [|room IH]; intros obj name indent H0 Hd; [lia|].
  destruct obj as [x|items|lst].
  - cbn [dumps_stack dumps]. destruct (named name); reflexivity.
  - destruct items as [|kv items].
    + cbn [dumps_stack dumps]. destruct (named name); reflexivity.
    + cbn [dumps_stack dumps].
      match goal with
      | |- context [collect ?m] =>
          match goal with
          | |- context [flat_map ?g ?l] =>
              assert (Hc : collect m = Returned (flat_map g l));
              [apply collect_map_all|rewrite Hc; reflexivity]
          end
      end.
      intros x Hx. cbv beta. pose proof (depth_entry x _ Hx) as Hle.
      cbn [depth] in Hd.
      destruct (snd x) as [y|d|d] eqn:Ex; [reflexivity| |];
        rewrite IH; try reflexivity; cbn [depth] in *; lia.
  - destruct lst as [|item lst].
    + cbn [dumps_stack dumps]. destruct (named name); reflexivity.
    + cbn [dumps_stack dumps].
      destruct (_all_dicts_uniform (item :: lst)) as [uniform keys].
      match goal with
      | |- context [if ?b then _ else _] => destruct b; [reflexivity|]
      end.
      destruct (forallb _is_primitive (item :: lst)).
      { destruct (named name); reflexivity. }
      match goal with
      | |- context [collect ?m] =>
          match goal with
          | |- context [flat_map ?g ?l] =>
              assert (Hc : collect m = Returned (flat_map g l));
              [apply collect_map_all|rewrite Hc; reflexivity]
          end
      end.
      intros x Hx. cbv beta. pose proof (depth_item x _ Hx) as Hle.
      cbn [depth] in Hd.
      destruct x as [y|d|d]; [reflexivity| |];
        rewrite IH; try reflexivity; cbn [depth] in *; lia.
Qed.

(** With a bounded stack [parse_block] returns what it returns without the
    bound, or raises. *)
Lemma parse_block_stack_cases (fuel : nat) :
  forall (frames e : nat) (lines : list line) (result : dict)
         (arr_mode : option (list value)),
    parse_block_stack fuel frames e lines result arr_mode
    = option_map Returned (parse_block fuel e lines result arr_mode)
    \/ parse_block_stack fuel frames e lines result arr_mode
       = Some RecursionError.
Proof.
  induction fuel as [|fuel IH]; intros frames e lines result arr_mode;
    [now left|].
  assert (Hnested : forall e1 rest
                      (C : value -> list line -> dict * option (list value)),
    match frames with
    | O => Some RecursionError
    | S room =>
        match parse_block_stack fuel room e1 rest [] None with
        | Some (Returned (item, rest')) =>
            parse_block_stack fuel frames e rest'
              (fst (C item rest')) (snd (C item rest'))
        | Some RecursionError => Some RecursionError
        | None => None
        end
    end
    = option_map Returned
        match parse_block fuel e1 rest [] None with
        | Some (item, rest') =>
            parse_block fuel e rest' (fst (C item rest')) (snd (C item rest'))
        | None => None
        end
    \/ match frames with
       | O => Some RecursionError
       | S room =>
           match parse_block_stack fuel room e1 rest [] None with
           | Some (Returned (item, rest')) =>
               parse_block_stack fuel frames e rest'
                 (fst (C item rest')) (snd (C item rest'))
           | Some RecursionError => Some RecursionError
           | None => None
           end
       end = Some RecursionError).
  { intros e1 rest C. destruct frames as [|room]; [now right|].
    destruct (IH room e1 rest [] None) as [E|E]; rewrite E; [|now right].
    destruct (parse_block fuel e1 rest [] None) as [[item rest']|];
      cbn [option_map]; [apply IH|now left]. }
  cbn [parse_block parse_block_stack].
  destruct lines as [|[indent content] rest]; [now left|].
  destruct ((indent <? e)%nat || (e <? indent)%nat); [now left|].
  destruct (str_eqb (strip content) (pystr "[]")).
  { destruct (is_empty_state result arr_mode); [now left|apply IH]. }
  destruct (str_eqb (strip content) (pystr "{}")).
  { destruct (is_empty_state result arr_mode); [now left|apply IH]. }
  destruct (startswith content (pystr "- ") || str_eqb content (pystr "-")).
  { destruct (str_eqb content (pystr "-")).
    - destruct rest as [|[next_indent c'] rest']; [apply IH|].
      destruct (indent <? next_indent)%nat; [|apply IH].
      exact (Hnested (indent + 1) ((next_indent, c') :: rest')
               (fun item _ =>
                  (result,
                   Some (match arr_mode with Some a => a | None => [] end
                         ++ [item])))).
    - match goal with
      | |- context [if ?b then _ else _] => destruct b; apply IH
      end. }
  destruct (find_colon content 0 false None) as [colon_pos|].
  2:{ destruct (is_empty_state result arr_mode); [now left|].
      destruct arr_mode; apply IH. }
  cbn zeta.
  destruct (str_eqb (strip (skipn (colon_pos + 1) content)) []).
  - match goal with
    | |- context [if ?b then _ else _] => destruct b
    end.
    + destruct (table_rows _ _ _) as [rows rest']. apply IH.
    + match goal with
      | |- context [dict_set ?key (if ?h && _ then _ else _) _] =>
          exact (Hnested (e + 1) rest
                   (fun nested _ =>
                      (dict_set key
                         (if h && is_empty_dict nested then VList []
                          else nested) result, arr_mode)))
      end.
  - match goal with
    | |- context [if ?b then _ else _] => destruct b; apply IH
    end.
Qed.

(** With fuel above the number of lines a bounded stack leaves two answers:
    the value, or [RecursionError]. *)
Lemma loads_stack_cases (frames : nat) (toon_str : str) :
  loads_stack frames toon_str = option_map Returned (loads toon_str)
  \/ loads_stack frames toon_str = Some RecursionError.
Proof.
  unfold loads_stack, loads. destruct frames as [|room]; [now right|].
  destruct (parse_block_stack_cases (S (List.length (preprocess toon_str)))
              room 0 (preprocess toon_str) [] None) as [E|E];
    rewrite E; [|now right].
  destruct (parse_block _ _ _ _ _) as [[parsed rest]|]; now left.
Qed.

(** *** A chain of mappings on the call stack *)

Section BareKeyStack.

Variable k : str.
Hypothesis key_is_identifier : isidentifier k = true.

(** A mapping with the one key [k] and a container under it: one nested
    call, for the container. *)
Lemma dumps_stack_single_key (room : nat) (v : value) (i : nat) :
  _is_primitive v = false ->
  dumps_stack (S room) (VDict [(k, v)]) None i
  = match dumps_stack room v None (i + 1) with
    | Returned text =>
        Returned (repeat_str INDENT_STR i ++ (k ++ [":"%char])
                    ++ newline :: rstrip_nl text ++ [newline])
    | RecursionError => RecursionError
    end.
Proof.
  intros Hv.
  cbn [dumps_stack named map collect fst snd].
  unfold _escape_header_key. rewrite key_is_identifier.
  destruct v as [x|items|items]; [discriminate| |];
    destruct (dumps_stack room _ None (i + 1)) as [text|]; try reflexivity;
    cbn [app join pystr String.list_ascii_of_string];
    rewrite <- !app_assoc; reflexivity.
Qed.

(** [dumps] of the chain makes one call per mapping: it returns when they
    fit, and raises when they do not. *)
Lemma dumps_stack_nested_mapping (n : nat) :
  forall frames i,
    dumps_stack frames (nested_mapping k n) None i
    = if (n <? frames)%nat
      then Returned (nested_text k n i ++ [newline])
      else RecursionError.
Proof.
  induction n as [|n IH]; intros frames i.
  - destruct frames as [|room]; [reflexivity|].
    cbn [nested_mapping dumps_stack named nested_text Nat.ltb Nat.leb].
    now rewrite <- app_assoc.
  - destruct frames as [|room]; [reflexivity|].
    change (S n <? S room)%nat with (n <? room)%nat.
    cbn [nested_mapping nested_text].
    rewrite dumps_stack_single_key by now destruct n.
    replace (i + 1) with (S i) by lia. rewrite IH.
    destruct (n <? room)%nat; [|reflexivity].
    rewrite rstrip_nl_nested_text.
    rewrite <- !app_assoc. reflexivity.
Qed.

(** A line [key:] opens a nested call when the stack has room for it. *)
Lemma parse_block_stack_key_line (fuel frames e : nat) (rest : list line)
    (result : dict) (arr_mode : option (list value)) :
  parse_block_stack (S fuel) frames e ((e, k ++ [":"%char]) :: rest) result
    arr_mode
  = match frames with
    | O => Some RecursionError
    | S room =>
        match parse_block_stack fuel room (e + 1) rest [] None with
        | Some (Returned (nested, rest')) =>
            parse_block_stack fuel frames e rest' (dict_set k nested result)
              arr_mode
        | Some RecursionError => Some RecursionError
        | None => None
        end
    end.
Proof.
  pose proof (key_chars k key_is_identifier) as Hall.
  destruct (key_ends k key_is_identifier) as (c & r & Ek & Hc & _).
  destruct (plain_char_spec c Hc) as (_ & _ & _ & _ & Hb & Hcb & Hd & _).
  cbn [parse_block_stack]. rewrite Nat.ltb_irrefl. cbn [orb].
  rewrite (strip_key_colon k key_is_identifier).
  assert (E1 : str_eqb (k ++ [":"%char]) (pystr "[]") = false).
  { apply str_eqb_neq. rewrite Ek. intros E. injection E as E _.
    subst c. discriminate Hb. }
  assert (E2 : str_eqb (k ++ [":"%char]) (pystr "{}") = false).
  { apply str_eqb_neq. rewrite Ek. intros E. injection E as E _.
    subst c. discriminate Hcb. }
  assert (E3 : startswith (k ++ [":"%char]) (pystr "- ") = false).
  { rewrite Ek. cbn [startswith pystr String.list_ascii_of_string app].
    rewrite Ascii.eqb_sym, Hd. reflexivity. }
  assert (E4 : str_eqb (k ++ [":"%char]) (pystr "-") = false).
  { apply str_eqb_neq. rewrite Ek. intros E. injection E as E _.
    subst c. discriminate Hd. }
  rewrite E1, E2, E3, E4. cbn [orb].
  rewrite (find_colon_plain k [] 0 Hall). cbn [Nat.add].
  rewrite firstn_app, firstn_all, Nat.sub_diag, firstn_O, app_nil_r.
  rewrite (strip_key k key_is_identifier).
  replace (skipn (List.length k + 1) (k ++ [":"%char])) with (@nil ascii).
  2:{ rewrite skipn_all2; [reflexivity|]. rewrite length_app. simpl. lia. }
  cbn [strip lstrip rstrip rev]. rewrite str_eqb_refl.
  rewrite (contains_plain k "["%char Hall eq_refl). cbn [andb].
  reflexivity.
Qed.

Hypothesis key_is_not_reserved : k <> pystr "_table".

(** [parse_block] of the lines of the chain makes one nested call per key:
    it returns when they fit, and raises when they do not. *)
Lemma parse_stack_nested_lines (n : nat) :
  forall i fuel frames, n < fuel ->
    parse_block_stack fuel frames i (nested_lines k n i) [] None
    = Some (if (n <=? frames)%nat
            then Returned (nested_mapping k n, [])
            else RecursionError).
Proof.
  induction n as [|n IH]; intros i fuel frames Hf.
  - destruct fuel as [|fuel]; [lia|].
    cbn [nested_lines parse_block_stack]. rewrite Nat.ltb_irrefl.
    reflexivity.
  - destruct fuel as [|fuel]; [lia|]. cbn [nested_lines nested_mapping].
    rewrite parse_block_stack_key_line.
    destruct frames as [|room]; [reflexivity|].
    change (S n <=? S room)%nat with (n <=? room)%nat.
    replace (i + 1) with (S i) by lia. rewrite IH by lia.
    destruct (n <=? room)%nat; [|reflexivity].
    destruct fuel as [|fuel]; [lia|]. cbn [parse_block_stack dict_set].
    now rewrite (block_result_single k key_is_not_reserved).
Qed.

(** [loads] of the text of the chain. *)
Lemma loads_stack_nested_text (n frames : nat) :
  loads_stack frames (nested_text k n 0 ++ [newline])
  = Some (if (n <? frames)%nat
          then Returned (nested_mapping k n)
          else RecursionError).
Proof.
  unfold loads_stack.
  rewrite (preprocess_nested_text k key_is_identifier).
  destruct frames as [|room]; [reflexivity|].
  rewrite parse_stack_nested_lines
    by (rewrite (nested_lines_length k); lia).
  change (n <? S room)%nat with (n <=? room)%nat.
  destruct (n <=? room)%nat; reflexivity.
Qed.

End BareKeyStack.

(** C8, as the specification states it, fails: no depth is a maximum that
    [dumps] or [loads] imposes.  Whatever depth is proposed, a mapping nested
    deeper is written and read back once the call stack has room for its
    levels. *)
Lemma no_configured_max_depth :
  ~ imposes_max_depth (fun frames v => Some (dumps_stack frames v None 0))
  /\ ~ imposes_max_depth
         (fun frames v => loads_stack frames (dumps v None 0)).
Proof.
  assert (H1 : isidentifier (pystr "lvl") = true) by reflexivity.
  assert (H2 : pystr "lvl" <> pystr "_table") by discriminate.
  split; intros (max_depth & H);
    specialize (H (S max_depth) _ (nested_mapping_deep max_depth)).
  - eapply H. rewrite (dumps_stack_nested_mapping _ H1).
    rewrite (proj2 (Nat.ltb_lt max_depth (S max_depth)))
      by apply Nat.lt_succ_diag_r.
    reflexivity.
  - eapply H. rewrite (dumps_nested_mapping _ H1).
    rewrite (loads_stack_nested_text _ H1 H2).
    rewrite (proj2 (Nat.ltb_lt max_depth (S max_depth)))
      by apply Nat.lt_succ_diag_r.
    reflexivity.
Qed.

(** C8, amended.  Neither [dumps] nor [loads] has a maximum nesting depth of
    its own, and neither has an error of its own for nesting: both recurse
    once per level.  The mapping nested [n] keys deep under a bare key is
    written, one line per level, and read back as it was when the call stack
    has room for more than [n] nested calls; when it has not, the call ends
    with the interpreter's [RecursionError]. *)
Theorem nesting_depth_limited_by_call_stack (k : str) (n frames : nat) :
  isidentifier k = true -> k <> pystr "_table" ->
  depth (nested_mapping k n) = S n
  /\ dumps (nested_mapping k n) None 0 = nested_text k n 0 ++ [newline]
  /\ dumps_stack frames (nested_mapping k n) None 0
     = (if (n <? frames)%nat
        then Returned (dumps (nested_mapping k n) None 0)
        else RecursionError)
  /\ loads_stack frames (dumps (nested_mapping k n) None 0)
     = Some (if (n <? frames)%nat
             then Returned (nested_mapping k n)
             else RecursionError).
Proof.
  intros Hk Ht. split; [apply depth_nested_mapping|].
  split; [now apply dumps_nested_mapping|].
  rewrite (dumps_nested_mapping k Hk). split.
  - now apply dumps_stack_nested_mapping.
  - now apply loads_stack_nested_text.
Qed.

Lemma nesting_depth_limited_by_call_stack_witness :
  depth (nested_mapping (pystr "lvl") 60) = 61
  /\ dumps_stack 61 (nested_mapping (pystr "lvl") 60) None 0
     = Returned (dumps (nested_mapping (pystr "lvl") 60) None 0)
  /\ loads_stack 61 (dumps (nested_mapping (pystr "lvl") 60) None 0)
     = Some (Returned (nested_mapping (pystr "lvl") 60))
  /\ dumps_stack 60 (nested_mapping (pystr "lvl") 60) None 0 = RecursionError
  /\ loads_stack 60 (dumps (nested_mapping (pystr "lvl") 60) None 0)
     = Some RecursionError.
Proof.
  assert (H1 : isidentifier (pystr "lvl") = true) by reflexivity.
  assert (H2 : pystr "lvl" <> pystr "_table") by discriminate.
  pose proof (nesting_depth_limited_by_call_stack (pystr "lvl") 60 61 H1 H2)
    as (Hd & _ & Hw & Hr).
  pose proof (nesting_depth_limited_by_call_stack (pystr "lvl") 60 60 H1 H2)
    as (_ & _ & Hw' & Hr').
  change (60 <? 61)%nat with true in Hw, Hr.
  change (60 <? 60)%nat with false in Hw', Hr'.
  split; [exact Hd|]. split; [exact Hw|]. split; [exact Hr|].
  split; [exact Hw'|exact Hr'].
Defined.

(** ** The round trip *)

(** C1 at the text ["5"]: it is written without quotes and read back as the
    integer 5. *)
Theorem round_trip_numeric_text :
  dumps (VPrim (PyStr (pystr "5"))) None 0 = pystr "5" ++ [newline]
  /\ loads (dumps (VPrim (PyStr (pystr "5"))) None 0) = Some (VPrim (PyInt 5))
  /\ loads (dumps (VPrim (PyStr (pystr "5"))) None 0)
     <> Some (VPrim (PyStr (pystr "5"))).
Proof.
  split; [reflexivity|]. split; [reflexivity|]. discriminate.
Qed.

(** ** Sequences of scalars and tables *)

Lemma all_scalars_forallb (lst : list value) :
  forallb _is_primitive lst = true <-> all_scalars lst.
Proof.
  rewrite forallb_forall. unfold all_scalars. split; intros H x Hx.
  - specialize (H x Hx). destruct x; try discriminate. now eexists.
  - destruct (H x Hx) as (p & ->). reflexivity.
Qed.

Lemma all_scalar_values_forallb (lst : list value) :
  forallb (fun d => forallb _is_primitive (values_of d)) lst = true
  <-> all_scalar_values lst.
Proof.
  rewrite forallb_forall. unfold all_scalar_values. split.
  - intros H d v Hd Hv. specialize (H d Hd). rewrite forallb_forall in H.
    specialize (H v Hv). destruct v; try discriminate. now eexists.
  - intros H d Hd. apply forallb_forall. intros v Hv.
    destruct (H d v Hd Hv) as (p & ->). reflexivity.
Qed.

Lemma all_dicts_uniform_scalars (x : value) (l : list value) :
  all_scalars (x :: l) -> _all_dicts_uniform (x :: l) = (false, None).
Proof.
  intros H. destruct (H x (or_introl eq_refl)) as (p & ->). reflexivity.
Qed.

Lemma dumps_scalars_keyed (name : str) (lst : list value) (indent : nat) :
  name <> [] -> lst <> [] -> all_scalars lst ->
  dumps (VList lst) (Some name) indent
  = repeat_str INDENT_STR indent ++ name
      ++ pystr "[" ++ str_of_nat (List.length lst) ++ pystr "]: "
      ++ join [","%char] (map prim_text lst) ++ [newline].
Proof.
  intros Hn Hl Hs. destruct lst as [|x l]; [contradiction|].
  destruct name as [|c name]; [contradiction|].
  cbn [dumps]. rewrite (all_dicts_uniform_scalars x l Hs). cbn [andb].
  rewrite (proj2 (all_scalars_forallb (x :: l)) Hs). reflexivity.
Qed.

(** A sequence of scalars without a name is one line [- v1, v2, ...]. *)
Theorem dumps_scalars_unkeyed (lst : list value) (indent : nat) :
  lst <> [] -> all_scalars lst ->
  dumps (VList lst) None indent
  = repeat_str INDENT_STR indent ++ pystr "- "
      ++ join (pystr ", ") (map prim_text lst) ++ [newline].
Proof.
  intros Hl Hs. destruct lst as [|x l]; [contradiction|].
  cbn [dumps]. rewrite (all_dicts_uniform_scalars x l Hs). cbn [andb].
  rewrite (proj2 (all_scalars_forallb (x :: l)) Hs). reflexivity.
Qed.

(** C2, as the specification states it, fails. *)
Lemma dumps_scalars_unkeyed_witness :
  dumps nums None 1 = pystr "  - 1, 2, 3" ++ [newline].
Proof.
  unfold nums. rewrite dumps_scalars_unkeyed.
  - reflexivity.
  - discriminate.
  - intros x [<-|[<-|[<-|[]]]]; eexists; reflexivity.
Defined.

Lemma scalar_sequence_not_keyed_in_mapping :
  dumps (VDict [(pystr "nums", nums)]) None 0
  <> pystr "nums[3]: 1,2,3" ++ [newline].
Proof. vm_compute. discriminate. Qed.

(** C2, amended.  A sequence of scalars that is given a name is written on
    one line, [name[N]: v1,v2,...]; so is [[1, 2, 3]] under the name [nums].
    As the value of a key of a mapping it is written as the line [nums:] and,
    one level deeper, the form without a name. *)
Theorem scalar_sequence_single_line :
  (forall (name : str) (lst : list value) (indent : nat),
      name <> [] -> lst <> [] -> all_scalars lst ->
      dumps (VList lst) (Some name) indent
      = repeat_str INDENT_STR indent ++ name
          ++ pystr "[" ++ str_of_nat (List.length lst) ++ pystr "]: "
          ++ join [","%char] (map prim_text lst) ++ [newline])
  /\ dumps nums (Some (pystr "nums")) 0 = pystr "nums[3]: 1,2,3" ++ [newline]
  /\ dumps (VDict [(pystr "nums", nums)]) None 0
     = pystr "nums:" ++ [newline] ++ pystr "  - 1, 2, 3" ++ [newline].
Proof.
  split; [exact dumps_scalars_keyed|]. split; reflexivity.
Qed.

Lemma scalar_sequence_single_line_witness :
  dumps (VList [int_value 7; text_value "a"]) (Some (pystr "xs")) 1
  = pystr "  xs[2]: 7,a" ++ [newline].
Proof.
  rewrite (proj1 scalar_sequence_single_line (pystr "xs")
             [int_value 7; text_value "a"] 1).
  - reflexivity.
  - discriminate.
  - discriminate.
  - intros x [<-|[<-|[]]]; eexists; reflexivity.
Defined.

(** Mappings with equal key sets are uniform, and the column keys are the
    keys of the first one in some order. *)
Lemma all_dicts_uniform_table (first : value) (rest : list value) :
  all_mappings (first :: rest) -> equal_key_sets (first :: rest) ->
  exists keys,
    _all_dicts_uniform (first :: rest) = (true, Some keys)
    /\ forall k, In k keys <-> In k (keys_of first).
Proof.
  intros Hm Hs. unfold _all_dicts_uniform.
  rewrite (proj2 (all_mappings_forallb (first :: rest)) Hm). cbn [negb].
  rewrite (proj2 (key_sets_forallb first (first :: rest))
                 (proj2 (equal_key_sets_first first rest) Hs)).
  destruct (forallb _ (first :: rest)).
  - exists (keys_of first). split; [reflexivity|tauto].
  - exists (sorted (key_set (keys_of first))). split; [reflexivity|].
    intros k. now rewrite sorted_In, key_set_In.
Qed.

(** C3, as the specification states it, fails. *)
Lemma table_not_keyed_in_mapping :
  dumps (VDict [(pystr "tbl", tbl)]) None 0
  <> pystr "tbl[2]{id,val}:" ++ [newline] ++ pystr "  1,A" ++ [newline]
       ++ pystr "  2,B" ++ [newline].
Proof. vm_compute. discriminate. Qed.

(** C3, amended.  A sequence of mappings with equal, not empty key sets and
    scalar values only is written as one header line and one row line per
    element; given the name [tbl], the example is [tbl[2]{id,val}:] and two
    rows.  As the value of a key of a mapping it is written as the line
    [tbl:] and, one level deeper, the table without a name. *)
Theorem uniform_table_form :
  (forall (name : option str) (first : value) (rest : list value)
          (indent : nat),
      all_mappings (first :: rest) -> equal_key_sets (first :: rest) ->
      all_scalar_values (first :: rest) -> keys_of first <> [] ->
      exists keys,
        snd (_all_dicts_uniform (first :: rest)) = Some keys
        /\ dumps (VList (first :: rest)) name indent
           = join [newline]
               (table_header name keys (List.length (first :: rest)) indent
                  :: map (table_row_line keys indent) (first :: rest))
               ++ [newline]
        /\ List.length (map (table_row_line keys indent) (first :: rest))
           = List.length (first :: rest))
  /\ dumps tbl (Some (pystr "tbl")) 0
     = pystr "tbl[2]{id,val}:" ++ [newline] ++ pystr "  1,A" ++ [newline]
         ++ pystr "  2,B" ++ [newline]
  /\ dumps (VDict [(pystr "tbl", tbl)]) None 0
     = pystr "tbl:" ++ [newline] ++ pystr "  [2]{id,val}:" ++ [newline]
         ++ pystr "    1,A" ++ [newline] ++ pystr "    2,B" ++ [newline].
Proof.
  split; [|split; reflexivity].
  intros name first rest indent Hm Hs Hv Hk.
  destruct (all_dicts_uniform_table first rest Hm Hs) as (keys & E & Hin).
  exists keys. rewrite E. split; [reflexivity|]. split; [|apply length_map].
  assert (Hne : keys <> []).
  { intros ->. destruct (keys_of first) as [|k ks]; [contradiction|].
    apply (Hin k). now left. }
  cbn [dumps]. rewrite E.
  rewrite (proj2 (all_scalar_values_forallb (first :: rest)) Hv).
  destruct keys as [|k ks]; [contradiction|]. cbn [negb andb].
  unfold table_header, table_row_line.
  destruct (named name); rewrite <- ?app_assoc; reflexivity.
Qed.

Lemma uniform_table_form_witness :
  exists keys,
    snd (_all_dicts_uniform
           [VDict [(pystr "id", int_value 1)];
            VDict [(pystr "id", int_value 2)]]) = Some keys
    /\ keys = [pystr "id"].
Proof.
  destruct (proj1 uniform_table_form None
              (VDict [(pystr "id", int_value 1)])
              [VDict [(pystr "id", int_value 2)]] 0) as (keys & E & _).
  - intros x [<-|[<-|[]]]; eexists; reflexivity.
  - intros x y [<-|[<-|[]]] [<-|[<-|[]]] k; reflexivity.
  - intros d v [<-|[<-|[]]] [<-|[]]; eexists; reflexivity.
  - discriminate.
  - exists keys. split; [exact E|]. vm_compute in E.
    injection E as <-. reflexivity.
Defined.

(** * Further properties *)

(** ** Integers *)

Ltac digit_arith :=
  unfold digit_val;
  match goal with
  | |- context [Z.of_nat (ord ?c - 48)] =>
      let v := eval vm_compute in (Z.of_nat (ord c - 48)) in
      change (Z.of_nat (ord c - 48)) with v
  end; lia.

Lemma digits_of_digits (d : Decimal.uint) :
  forallb is_digit (digits_of d) = true.
Proof. induction d; cbn; auto. Qed.

Lemma digits_val_acc (d : Decimal.uint) (acc : positive) :
  fold_left (fun a c => (a * 10 + digit_val c)%Z) (digits_of d) (Zpos acc)
  = Zpos (Pos.of_uint_acc d acc).
Proof.
  revert acc. induction d; intros acc; unfold digits_of in *;
    cbn [DecimalString.NilEmpty.string_of_uint String.list_ascii_of_string
         fold_left Pos.of_uint_acc];
    [reflexivity|..];
    match goal with
    | |- fold_left _ _ ?z = _ =>
        match goal with
        | |- _ = Zpos (Pos.of_uint_acc _ ?q) =>
            replace z with (Zpos q) by digit_arith
        end
    end; apply IHd.
Qed.

Lemma digits_val_of_uint (d : Decimal.uint) :
  digits_val (digits_of d) = Z.of_uint d.
Proof.
  unfold digits_val, Z.of_uint. induction d; unfold digits_of in *;
    cbn [DecimalString.NilEmpty.string_of_uint String.list_ascii_of_string
         fold_left Pos.of_uint];
    [reflexivity|exact IHd|..];
    match goal with
    | |- fold_left _ _ ?z = Z.of_N (N.pos (Pos.of_uint_acc _ ?q)) =>
        change z with (Zpos q); apply (digits_val_acc d q)
    end.
Qed.

Lemma digits_of_nonnil (d : Decimal.uint) :
  d <> Decimal.Nil -> digits_of d <> [].
Proof. destruct d; intros H; [contradiction|discriminate..]. Qed.

Lemma digit_plain (c : ascii) :
  is_digit c = true ->
  isspace c = false /\ Ascii.eqb c "_"%char = false
  /\ Ascii.eqb c "-"%char = false /\ Ascii.eqb c "+"%char = false
  /\ is_linebreak c = false /\ is_quote c = false
  /\ Ascii.eqb c ","%char = false /\ Ascii.eqb c ":"%char = false.
Proof.
  assert (B : implb (is_digit c)
                (negb (isspace c) && negb (Ascii.eqb c "_"%char)
                 && negb (Ascii.eqb c "-"%char) && negb (Ascii.eqb c "+"%char)
                 && negb (is_linebreak c) && negb (is_quote c)
                 && negb (Ascii.eqb c ","%char) && negb (Ascii.eqb c ":"%char))
              = true).
  { destruct c as [b0 b1 b2 b3 b4 b5 b6 b7].
    destruct b0, b1, b2, b3, b4, b5, b6, b7; reflexivity. }
  intros H. rewrite H in B. cbn [implb] in B.
  rewrite !andb_true_iff, !negb_true_iff in B. tauto.
Qed.

Lemma remove_underscores_none (s : str) (prev : ascii) :
  no_underscore s -> Ascii.eqb prev "_"%char = false ->
  remove_underscores prev s = Some s.
Proof.
  unfold no_underscore. revert prev.
  induction s as [|c r IH]; intros prev H Hp; cbn [remove_underscores].
  - now rewrite Hp.
  - cbn [forallb] in H. apply andb_true_iff in H. destruct H as [Hc Hr].
    apply negb_true_iff in Hc. rewrite Hc, Hp. cbn [andb].
    now rewrite (IH c Hr Hc).
Qed.

Lemma digits_no_underscore (s : str) :
  forallb is_digit s = true -> no_underscore s.
Proof.
  unfold no_underscore. rewrite !forallb_forall. intros H c Hc.
  apply negb_true_iff. apply (digit_plain c (H c Hc)).
Qed.

(** [int] reads a string of digits as the number they write. *)
Lemma int_of_str_digits (ds : str) :
  ds <> [] -> forallb is_digit ds = true ->
  int_of_str ds = Some (digits_val ds)
  /\ int_of_str ("-"%char :: ds) = Some (- digits_val ds)%Z.
Proof.
  intros Hne Hd.
  assert (Hfirst : exists c r, ds = c :: r /\ is_digit c = true).
  { destruct ds as [|c r]; [contradiction|]. exists c, r. split; [easy|].
    cbn [forallb] in Hd. now apply andb_true_iff in Hd. }
  assert (Hlast : isspace (last ds " "%char) = false).
  { destruct (exists_last Hne) as (r & c & ->). rewrite last_snoc.
    rewrite forallb_forall in Hd. apply (digit_plain c), Hd, in_or_app.
    right. now left. }
  destruct Hfirst as (c & r & E & Hc).
  destruct (digit_plain c Hc) as (Hs & Hu & Hm & Hp & _).
  assert (Hss : split_sign ds = (false, ds)).
  { rewrite E. cbn [split_sign]. now rewrite Hm, Hp. }
  assert (Hu' : no_underscore ds) by now apply digits_no_underscore.
  unfold int_of_str. split.
  - rewrite strip_id; [|rewrite E; exact Hs|exact Hlast].
    rewrite remove_underscores_none; [|exact Hu'|reflexivity].
    rewrite Hss, Hd. now destruct ds.
  - rewrite strip_id; [|reflexivity|].
    2:{ clear -Hne Hlast. destruct ds; [contradiction|exact Hlast]. }
    rewrite remove_underscores_none; [| |reflexivity].
    2:{ unfold no_underscore. cbn [forallb]. apply andb_true_iff.
        split; [reflexivity|exact Hu']. }
    cbn [split_sign Ascii.eqb Bool.eqb]. rewrite Hd. now destruct ds.
Qed.

Lemma str_of_int_cases (z : Z) :
  (exists ds, ds <> [] /\ forallb is_digit ds = true
              /\ str_of_int z = ds /\ digits_val ds = z)
  \/ (exists ds, ds <> [] /\ forallb is_digit ds = true
                 /\ str_of_int z = "-"%char :: ds /\ (- digits_val ds)%Z = z).
Proof.
  destruct z as [|p|p].
  - left. exists ["0"%char]. repeat split. discriminate.
  - left. exists (digits_of (Pos.to_uint p)).
    pose proof (DecimalPos.Unsigned.to_uint_nonnil p) as Hn.
    split; [now apply digits_of_nonnil|]. split; [apply digits_of_digits|].
    split.
    + unfold str_of_int, digits_of. cbn [Z.to_int].
      cbn [DecimalString.NilZero.string_of_int].
      unfold DecimalString.NilZero.string_of_uint.
      destruct (Pos.to_uint p); [contradiction|reflexivity..].
    + rewrite digits_val_of_uint. unfold Z.of_uint.
      now rewrite DecimalPos.Unsigned.of_to.
  - right. exists (digits_of (Pos.to_uint p)).
    pose proof (DecimalPos.Unsigned.to_uint_nonnil p) as Hn.
    split; [now apply digits_of_nonnil|]. split; [apply digits_of_digits|].
    split.
    + unfold str_of_int, digits_of. cbn [Z.to_int].
      cbn [DecimalString.NilZero.string_of_int].
      unfold DecimalString.NilZero.string_of_uint.
      destruct (Pos.to_uint p); [contradiction|reflexivity..].
    + rewrite digits_val_of_uint. unfold Z.of_uint.
      now rewrite DecimalPos.Unsigned.of_to.
Qed.

(** [int(str(z))] is [z]. *)
Lemma int_of_str_of_int (z : Z) : int_of_str (str_of_int z) = Some z.
Proof.
  destruct (str_of_int_cases z) as [(ds & Hn & Hd & -> & <-)|(ds & Hn & Hd & -> & <-)].
  - apply (int_of_str_digits ds Hn Hd).
  - apply (int_of_str_digits ds Hn Hd).
Qed.

(** ** More on [strip] *)

Lemma lstrip_suffix (s : str) :
  exists a, s = a ++ lstrip s /\ forallb isspace a = true.
Proof.
  induction s as [|c r (a & E & Ha)]; [now exists []|].
  cbn [lstrip]. destruct (isspace c) eqn:Hc.
  - exists (c :: a). cbn [app forallb]. rewrite Hc, Ha. now rewrite <- E.
  - now exists [].
Qed.

Lemma lstrip_head (s : str) :
  lstrip s = [] \/ exists c r, lstrip s = c :: r /\ isspace c = false.
Proof.
  induction s as [|c r IH]; [now left|]. cbn [lstrip].
  destruct (isspace c) eqn:Hc; [exact IH|]. right. now exists c, r.
Qed.

(** [s] is white space, then [strip s], then white space. *)
Lemma strip_decompose (s : str) :
  exists a b, s = a ++ strip s ++ b
              /\ forallb isspace a = true /\ forallb isspace b = true.
Proof.
  destruct (lstrip_suffix s) as (a & Ea & Ha).
  destruct (lstrip_suffix (rev (lstrip s))) as (b & Eb & Hb).
  exists a, (rev b). split; [|split; [exact Ha|now apply forallb_rev_true]].
  unfold strip, rstrip. rewrite <- rev_app_distr, <- Eb, rev_involutive.
  exact Ea.
Qed.

(** [strip s] is empty, or starts and ends with characters that are no white
    space. *)
Lemma strip_ends (s : str) :
  strip s = []
  \/ (isspace (hd " "%char (strip s)) = false
      /\ isspace (last (strip s) " "%char) = false).
Proof.
  unfold strip, rstrip.
  destruct (lstrip_head (rev (lstrip s))) as [E|(d & r & E & Hd)].
  - left. now rewrite E.
  - right. rewrite E. cbn [rev]. rewrite last_snoc. split; [|exact Hd].
    destruct (lstrip_head s) as [E0|(c & r0 & E0 & Hc)].
    + rewrite E0 in E. discriminate.
    + destruct (lstrip_suffix (rev (lstrip s))) as (a & Ea & _).
      rewrite E in Ea. apply (f_equal (@rev ascii)) in Ea.
      rewrite rev_involutive, rev_app_distr in Ea. cbn [rev] in Ea.
      rewrite E0 in Ea. destruct (rev r ++ [d]) as [|x y] eqn:Ex.
      * destruct (rev r); discriminate.
      * cbn [app] in Ea. injection Ea as <- _. exact Hc.
Qed.

Lemma strip_idempotent (s : str) : strip (strip s) = strip s.
Proof.
  destruct (strip_ends s) as [E|[Hh Hl]]; [now rewrite E|].
  now apply strip_id.
Qed.

(** The decoder strips its token first, so white space around a token does
    not matter. *)
Lemma parse_strip (tok : str) :
  _parse_primitive_token (strip tok) = _parse_primitive_token tok.
Proof. unfold _parse_primitive_token. now rewrite strip_idempotent. Qed.

Lemma strip_nonspace_In (s : str) (c : ascii) :
  In c s -> isspace c = false -> In c (strip s).
Proof.
  intros Hc Hs. destruct (strip_decompose s) as (a & b & E & Ha & Hb).
  rewrite E in Hc. rewrite forallb_forall in Ha, Hb.
  apply in_app_or in Hc. destruct Hc as [Hc|Hc].
  - rewrite (Ha c Hc) in Hs. discriminate.
  - apply in_app_or in Hc. destruct Hc as [Hc|Hc]; [exact Hc|].
    rewrite (Hb c Hc) in Hs. discriminate.
Qed.

Lemma strip_nonblank (s : str) (c : ascii) :
  In c s -> isspace c = false -> strip s <> [].
Proof.
  intros Hc Hs E. pose proof (strip_nonspace_In s c Hc Hs) as H.
  now rewrite E in H.
Qed.

Lemma strip_In (s : str) (c : ascii) : In c (strip s) -> In c s.
Proof.
  intros H. destruct (strip_decompose s) as (a & b & E & _).
  rewrite E. apply in_or_app. right. apply in_or_app. now left.
Qed.

(** A text that starts with a character that is no white space keeps it. *)
Lemma strip_keeps_head (c : ascii) (r : str) :
  isspace c = false -> exists r', strip (c :: r) = c :: r'.
Proof.
  intros Hc. unfold strip. rewrite (lstrip_nonspace c r Hc).
  unfold rstrip. destruct (lstrip_suffix (rev (c :: r))) as (a & Ea & Ha).
  destruct (lstrip (rev (c :: r))) as [|d t] eqn:E.
  - exfalso. rewrite app_nil_r in Ea. rewrite <- Ea in Ha.
    rewrite forallb_forall in Ha.
    rewrite (Ha c) in Hc; [discriminate|]. apply in_rev. rewrite rev_involutive.
    now left.
  - apply (f_equal (@rev ascii)) in Ea.
    rewrite rev_involutive, rev_app_distr in Ea.
    destruct (rev (d :: t)) as [|x y] eqn:Ex.
    + cbn [rev] in Ex. destruct (rev t); discriminate.
    + cbn [app] in Ea. injection Ea as <- _. now exists y.
Qed.

(** ** Scalars through the codec *)

Lemma str_of_int_chars (z : Z) :
  str_of_int z <> []
  /\ forallb (fun c => is_digit c || Ascii.eqb c "-"%char) (str_of_int z)
     = true.
Proof.
  destruct (str_of_int_cases z)
    as [(ds & Hn & Hd & -> & _)|(ds & Hn & Hd & -> & _)].
  - split; [exact Hn|]. rewrite forallb_forall in *. intros c Hc.
    now rewrite (Hd c Hc).
  - split; [discriminate|]. cbn [forallb].
    apply andb_true_iff. split; [reflexivity|].
    rewrite forallb_forall in *. intros c Hc. now rewrite (Hd c Hc).
Qed.

Lemma digit_or_minus_plain (c : ascii) :
  is_digit c || Ascii.eqb c "-"%char = true ->
  isspace c = false /\ is_linebreak c = false /\ cell_char c = true
  /\ Ascii.eqb c ":"%char = false.
Proof.
  assert (B : implb (is_digit c || Ascii.eqb c "-"%char)
                (negb (isspace c) && negb (is_linebreak c) && cell_char c
                 && negb (Ascii.eqb c ":"%char)) = true).
  { destruct c as [b0 b1 b2 b3 b4 b5 b6 b7].
    destruct b0, b1, b2, b3, b4, b5, b6, b7; reflexivity. }
  intros H. rewrite H in B. cbn [implb] in B.
  rewrite !andb_true_iff, !negb_true_iff in B. tauto.
Qed.


Lemma str_of_int_simple (z : Z) : simple_token (str_of_int z).
Proof.
  destruct (str_of_int_chars z) as [Hn Hc].
  assert (P : forall c, In c (str_of_int z) ->
                        isspace c = false /\ is_linebreak c = false
                        /\ cell_char c = true /\ Ascii.eqb c ":"%char = false).
  { intros c Hin. apply digit_or_minus_plain.
    rewrite forallb_forall in Hc. now apply Hc. }
  split; [exact Hn|]. split; [|split].
  - destruct (str_of_int z) as [|c r] eqn:E; [contradiction|].
    apply strip_id.
    + apply (P c). now left.
    + destruct (exists_last (l := c :: r)) as (r' & d & E'); [discriminate|].
      rewrite E', last_snoc. apply (P d). rewrite E'. apply in_or_app.
      right. now left.
  - unfold no_linebreak. apply forallb_forall. intros c Hin.
    apply negb_true_iff. now apply (P c).
  - apply forallb_forall. intros c Hin. now apply (P c).
Qed.

Lemma parse_str_of_int (z : Z) :
  _parse_primitive_token (str_of_int z) = PyInt z.
Proof.
  destruct (str_of_int_simple z) as (Hn & Hs & _ & Hc).
  destruct (str_of_int_chars z) as [_ Hd].
  unfold _parse_primitive_token. rewrite Hs.
  destruct (str_of_int z) as [|c r] eqn:E; [contradiction|].
  assert (Hc0 : is_digit c || Ascii.eqb c "-"%char = true).
  { cbn [forallb] in Hd. now apply andb_true_iff in Hd. }
  assert (K : forall k, isidentifier k = true ->
                        str_eqb (c :: r) k = false).
  { intros k Hk. apply str_eqb_neq. intros <-. cbn [isidentifier] in Hk.
    apply andb_true_iff in Hk. destruct Hk as [Hk _].
    clear -Hk Hc0. destruct c as [b0 b1 b2 b3 b4 b5 b6 b7].
    destruct b0, b1, b2, b3, b4, b5, b6, b7; discriminate. }
  rewrite (str_eqb_neq (c :: r) []) by discriminate.
  rewrite !K by reflexivity.
  assert (Q : forall q, is_quote q = true -> quoted_with q (c :: r) = false).
  { intros q Hq. unfold quoted_with. cbn [startswith].
    destruct (Ascii.eqb q c) eqn:Eq; [|reflexivity].
    apply Ascii.eqb_eq in Eq. subst q. cbn [forallb] in Hc.
    apply andb_true_iff in Hc. destruct Hc as [Hc _]. unfold cell_char in Hc.
    rewrite Hq in Hc. discriminate. }
  rewrite !Q by reflexivity. cbn [orb].
  rewrite <- E, int_of_str_of_int. reflexivity.
Qed.

(** What the decoder makes of a text that was written bare. *)
Lemma parse_bare (s : str) :
  ~ must_quote s ->
  _parse_primitive_token s
  = match int_of_str s with
    | Some z => PyInt z
    | None =>
        match float_of_str s with
        | Some f => PyFloat f
        | None => PyStr s
        end
    end.
Proof.
  intros Hq. destruct (bare_text _ Hq) as (E0 & E1 & E2 & E3 & E4 & E5 & E6).
  unfold _parse_primitive_token. now rewrite E0, E1, E2, E3, E4, E5, E6.
Qed.

Lemma must_quote_dec (s : str) : must_quote s \/ ~ must_quote s.
Proof.
  destruct s as [|c r]; [left; now left|].
  destruct (needs_quote (c :: r)) eqn:Q.
  - left. apply needs_quote_spec; [discriminate|exact Q].
  - right. intros M. apply needs_quote_spec in M; [|discriminate]. congruence.
Qed.

Lemma reads_back_parse (x : scalar) :
  reads_back x -> _parse_primitive_token (_to_toon_primitive x) = x.
Proof.
  destruct x as [|b|z|f|s]; cbn [reads_back].
  - reflexivity.
  - now destruct b.
  - intros _. apply parse_str_of_int.
  - contradiction.
  - intros H. destruct (must_quote_dec s) as [M|M].
    + rewrite (to_toon_primitive_quoted s M). apply parse_json_dumps.
    + destruct H as [H|H]; [contradiction|].
      rewrite (to_toon_primitive_bare s M), (parse_bare s M).
      unfold parses_as_number in H.
      destruct (int_of_str s); [exfalso; apply H; left; discriminate|].
      destruct (float_of_str s);
        [exfalso; apply H; right; discriminate|reflexivity].
Qed.

(** [None], the booleans and every integer of at most [int_max_str_digits]
    decimal digits are read back from their tokens.  Beyond that number of
    digits [str] raises [ValueError] while the limit is on, and no token is
    written. *)
Theorem atom_token_round_trip :
  _parse_primitive_token (_to_toon_primitive PyNone) = PyNone
  /\ (forall b, _parse_primitive_token (_to_toon_primitive (PyBool b))
                = PyBool b)
  /\ (forall z, within_int_max_str_digits z = true ->
                _parse_primitive_token (_to_toon_primitive (PyInt z))
                = PyInt z).
Proof.
  split; [reflexivity|]. split.
  - intros b. now destruct b.
  - intros z _. apply parse_str_of_int.
Qed.

Lemma atom_token_round_trip_witness :
  within_int_max_str_digits (-12345) = true
  /\ _parse_primitive_token (_to_toon_primitive (PyInt (-12345)))
     = PyInt (-12345).
Proof.
  assert (H : within_int_max_str_digits (-12345) = true)
    by (vm_compute; reflexivity).
  split; [exact H|].
  exact (proj2 (proj2 atom_token_round_trip) (-12345)%Z H).
Defined.

(** A text comes back from its token exactly when it is quoted or does not
    read as a number. *)
Theorem text_round_trip_iff (s : str) :
  _parse_primitive_token (_to_toon_primitive (PyStr s)) = PyStr s
  <-> must_quote s \/ ~ parses_as_number s.
Proof.
  split.
  - intros E. destruct (must_quote_dec s) as [M|M]; [now left|right].
    rewrite (to_toon_primitive_bare s M), (parse_bare s M) in E.
    unfold parses_as_number.
    destruct (int_of_str s); [discriminate|].
    destruct (float_of_str s); [discriminate|]. intros [N|N]; now apply N.
  - intros H. now apply (reads_back_parse (PyStr s)).
Qed.

(** ** The comma-aware splitter *)

(** Outside quotes a text without commas and quotes is added to the cell that
    is being read. *)
Lemma split_csv_plain (tok rest : str) (parts : list str) (cur : str)
    (qchar : option ascii) :
  forallb cell_char tok = true ->
  split_csv_loop (tok ++ rest) parts cur false qchar
  = split_csv_loop rest parts (cur ++ tok) false qchar.
Proof.
  revert cur. induction tok as [|c tok IH]; intros cur H.
  - now rewrite app_nil_r.
  - cbn [forallb] in H. apply andb_true_iff in H. destruct H as [Hc Ht].
    unfold cell_char in Hc. apply andb_true_iff in Hc.
    destruct Hc as [Hq Hcomma]. apply negb_true_iff in Hq, Hcomma.
    cbn [app split_csv_loop]. rewrite Hq, Hcomma. cbn [andb].
    rewrite (IH (cur ++ [c]) Ht). now rewrite <- app_assoc.
Qed.

(** Inside double quotes everything up to the next double quote is added to
    the cell, commas included. *)
Lemma split_csv_quoted (body rest : str) (parts : list str) (cur : str) :
  no_dquote body ->
  split_csv_loop (body ++ dquote :: rest) parts cur true (Some dquote)
  = split_csv_loop rest parts (cur ++ body ++ [dquote]) false (Some dquote).
Proof.
  unfold no_dquote. revert cur. induction body as [|c body IH]; intros cur H.
  - reflexivity.
  - cbn [forallb] in H. apply andb_true_iff in H. destruct H as [Hc Hb].
    apply negb_true_iff in Hc.
    cbn [app split_csv_loop same_quote negb].
    rewrite (Ascii.eqb_sym dquote c), Hc, andb_false_r.
    assert (E : split_csv_loop (body ++ dquote :: rest) parts (cur ++ [c])
                  true (Some dquote)
                = split_csv_loop rest parts (cur ++ c :: body ++ [dquote])
                    false (Some dquote)).
    { rewrite (IH (cur ++ [c]) Hb). now rewrite <- app_assoc. }
    now destruct (is_quote c).
Qed.

Lemma json_escape_no_dquote (c : ascii) :
  Ascii.eqb c dquote = false ->
  forallb (fun x => negb (Ascii.eqb x dquote)) (json_escape_char c) = true.
Proof.
  assert (B : implb (negb (Ascii.eqb c dquote))
                (forallb (fun x => negb (Ascii.eqb x dquote))
                         (json_escape_char c)) = true).
  { destruct c as [b0 b1 b2 b3 b4 b5 b6 b7].
    destruct b0, b1, b2, b3, b4, b5, b6, b7; reflexivity. }
  intros H. now rewrite H in B.
Qed.

Lemma json_body_no_dquote (s : str) :
  no_dquote s -> no_dquote (flat_map json_escape_char s).
Proof.
  unfold no_dquote. induction s as [|c r IH]; [easy|].
  cbn [forallb flat_map]. intros H. apply andb_true_iff in H.
  destruct H as [Hc Hr]. apply negb_true_iff in Hc.
  rewrite forallb_app, (json_escape_no_dquote c Hc). now apply IH.
Qed.

(** One cell, read outside quotes, is added to what has been read. *)
Lemma split_csv_cell (cell rest : str) (parts : list str) (cur : str)
    (qchar : option ascii) :
  csv_cell cell ->
  exists q,
    split_csv_loop (cell ++ rest) parts cur false qchar
    = split_csv_loop rest parts (cur ++ cell) false q.
Proof.
  intros [H|(s & -> & H)].
  - exists qchar. now rewrite split_csv_plain.
  - exists (Some dquote). unfold json_dumps.
    cbn [app split_csv_loop]. change (is_quote dquote) with true.
    cbn [negb]. rewrite <- app_assoc. cbn [app].
    rewrite split_csv_quoted by now apply json_body_no_dquote.
    now rewrite <- app_assoc.
Qed.

Lemma split_csv_cells (cells : list str) :
  Forall csv_cell cells ->
  forall (parts : list str) (qchar : option ascii),
    split_csv_loop (join [","%char] cells) parts [] false qchar
    = parts ++ split_cells cells.
Proof.
  induction 1 as [|cell cells Hc Hcs IH]; intros parts qchar.
  - cbn. now rewrite app_nil_r.
  - destruct cells as [|cell2 cells].
    + cbn [join]. rewrite <- (app_nil_r cell) at 1.
      destruct (split_csv_cell cell [] parts [] qchar Hc) as (q & ->).
      cbn [split_csv_loop app]. unfold split_cells.
      cbn [removelast map last app].
      destruct (str_eqb (strip cell) []); cbn [negb app];
        now rewrite ?app_nil_r.
    + change (join [","%char] (cell :: cell2 :: cells))
        with (cell ++ ","%char :: join [","%char] (cell2 :: cells)).
      destruct (split_csv_cell cell (","%char :: join [","%char] (cell2 :: cells))
                  parts [] qchar Hc) as (q & ->).
      cbn [split_csv_loop is_quote Ascii.eqb Bool.eqb orb andb negb app].
      rewrite IH. unfold split_cells.
      change (removelast (cell :: cell2 :: cells))
        with (cell :: removelast (cell2 :: cells)).
      change (last (cell :: cell2 :: cells) [])
        with (last (cell2 :: cells) []).
      cbn [map]. now rewrite <- app_assoc.
Qed.

(** A line of cells joined by commas is split into its cells: each cell is
    stripped, a literal in double quotes is one cell whatever commas it holds,
    and a blank last cell is dropped while blank cells before it are kept. *)
Theorem split_csv_like_cells (cells : list str) :
  Forall csv_cell cells ->
  _split_csv_like (join [","%char] cells) = split_cells cells.
Proof.
  intros H. unfold _split_csv_like. now rewrite split_csv_cells.
Qed.

Lemma split_csv_like_cells_witness :
  _split_csv_like
    (join [","%char] [pystr " a "; json_dumps (pystr "x,y"); []; pystr "b"; []])
  = [pystr "a"; json_dumps (pystr "x,y"); []; pystr "b"].
Proof.
  rewrite split_csv_like_cells; [reflexivity|].
  apply Forall_cons; [left; reflexivity|].
  apply Forall_cons; [right; exists (pystr "x,y"); split; reflexivity|].
  repeat (apply Forall_cons; [left; reflexivity|]). apply Forall_nil.
Defined.

(** ** The line tokenizer *)

Lemma splitlines_aux_ending (ln ending rest cur : str) :
  no_linebreak ln -> line_ending ending ->
  splitlines_aux (ln ++ ending ++ rest) cur
  = (rev cur ++ ln) :: splitlines_aux rest [].
Proof.
  intros Hl [->| ->]; [apply (splitlines_aux_line ln rest cur Hl)|].
  unfold no_linebreak in Hl. revert cur.
  change ([creturn; newline] ++ rest) with (creturn :: newline :: rest).
  induction ln as [|c ln IH]; intros cur.
  - rewrite app_nil_r. reflexivity.
  - cbn [forallb] in Hl. apply andb_true_iff in Hl. destruct Hl as [Hc Hl].
    apply negb_true_iff in Hc. cbn [app splitlines_aux]. rewrite Hc.
    rewrite (IH Hl (c :: cur)). cbn [rev]. now rewrite <- app_assoc.
Qed.

(** [splitlines] gives back the lines a text was made of. *)
Lemma splitlines_unlines (ending : str) (lines : list str) :
  line_ending ending -> Forall no_linebreak lines ->
  splitlines (unlines ending lines) = lines.
Proof.
  intros He. induction 1 as [|ln lines Hl Hls IH]; [reflexivity|].
  unfold splitlines, unlines in *. cbn [flat_map]. rewrite <- app_assoc.
  rewrite (splitlines_aux_ending ln ending _ [] Hl He). cbn [rev app].
  now rewrite IH.
Qed.

Lemma preprocess_unlines (ending : str) (lines : list str) :
  line_ending ending -> Forall no_linebreak lines ->
  preprocess (unlines ending lines) = map tokenize (filter nonblank lines).
Proof.
  intros He Hl. unfold preprocess. rewrite (splitlines_unlines _ _ He Hl).
  change (fun ln : str => negb (str_eqb (strip ln) [])) with nonblank.
  induction Hl as [|ln lines Hln Hls IH]; [reflexivity|].
  cbn [filter]. destruct (nonblank ln); [|exact IH].
  cbn [map]. rewrite IH, (no_linebreak_no_newline ln Hln). reflexivity.
Qed.

Lemma loads_preprocess (s t : str) :
  preprocess s = preprocess t -> loads s = loads t.
Proof. intros E. unfold loads. now rewrite E. Qed.

Lemma filter_nonblank_idempotent (lines : list str) :
  filter nonblank (filter nonblank lines) = filter nonblank lines.
Proof.
  induction lines as [|ln lines IH]; [reflexivity|]. cbn [filter].
  destruct (nonblank ln) eqn:E; [|exact IH]. cbn [filter].
  now rewrite E, IH.
Qed.

Lemma Forall_filter {A : Type} (P : A -> Prop) (f : A -> bool) (l : list A) :
  Forall P l -> Forall P (filter f l).
Proof.
  induction 1 as [|x l Hx Hl IH]; [constructor|]. cbn [filter].
  destruct (f x); [now constructor|exact IH].
Qed.

(** Blank lines carry no meaning: a text decodes as the text without
    them. *)
Theorem loads_ignores_blank_lines (lines : list str) :
  Forall no_linebreak lines ->
  loads (unlines [newline] lines)
  = loads (unlines [newline] (filter nonblank lines)).
Proof.
  intros H. apply loads_preprocess.
  rewrite !preprocess_unlines;
    [|now left|now apply Forall_filter|now left|exact H].
  now rewrite filter_nonblank_idempotent.
Qed.

Lemma loads_ignores_blank_lines_witness :
  loads (unlines [newline] [pystr "a: 1"; []; pystr "   "; pystr "b: 2"])
  = loads (unlines [newline] [pystr "a: 1"; pystr "b: 2"]).
Proof.
  apply (loads_ignores_blank_lines
           [pystr "a: 1"; []; pystr "   "; pystr "b: 2"]).
  repeat constructor.
Defined.

(** Lines ended by CR LF decode as the same lines ended by LF. *)
Theorem loads_crlf (lines : list str) :
  Forall no_linebreak lines ->
  loads (unlines [creturn; newline] lines) = loads (unlines [newline] lines).
Proof.
  intros H. apply loads_preprocess.
  rewrite !preprocess_unlines; [reflexivity|now left|exact H|now right|exact H].
Qed.

Lemma loads_crlf_witness :
  loads (unlines [creturn; newline] [pystr "a:"; pystr "  b: 2"])
  = loads (unlines [newline] [pystr "a:"; pystr "  b: 2"]).
Proof. apply loads_crlf. repeat constructor. Defined.

(** The split of a line into its indentation and its content, by induction
    on a bound of its length. *)
Lemma count_leading_indent_spec (n : nat) :
  forall s : str,
    List.length s <= n ->
    s = repeat_str INDENT_STR (_count_leading_indent s)
          ++ skipn (_count_leading_indent s * List.length INDENT_STR) s
    /\ startswith
         (skipn (_count_leading_indent s * List.length INDENT_STR) s)
         INDENT_STR = false.
Proof.
  induction n as [|n IH]; intros s Hn.
  - destruct s; [now split|simpl in Hn; lia].
  - destruct s as [|a [|b r]]; [now split| |].
    + cbn. split; [reflexivity|]. now rewrite andb_false_r.
    + cbn [_count_leading_indent].
      destruct (Ascii.eqb a " "%char && Ascii.eqb b " "%char) eqn:E.
      * apply andb_true_iff in E. destruct E as [Ea Eb].
        apply Ascii.eqb_eq in Ea, Eb. subst a b.
        destruct (IH r) as [E1 E2]; [simpl in Hn; lia|].
        cbn [repeat_str Nat.mul Nat.add List.length INDENT_STR pystr
             String.list_ascii_of_string app skipn] in *.
        split; [now rewrite <- E1|exact E2].
      * cbn [repeat_str Nat.mul skipn app]. split; [reflexivity|].
        cbn [startswith INDENT_STR pystr String.list_ascii_of_string].
        rewrite andb_true_r, (Ascii.eqb_sym " "%char a),
          (Ascii.eqb_sym " "%char b). exact E.
Qed.

(** The indentation count and the content make up the line; the content does
    not start with another indentation unit, and indentation put in front is
    counted. *)
Theorem count_leading_indent_split (s : str) :
  s = repeat_str INDENT_STR (_count_leading_indent s)
        ++ skipn (_count_leading_indent s * List.length INDENT_STR) s
  /\ startswith (skipn (_count_leading_indent s * List.length INDENT_STR) s)
                INDENT_STR = false
  /\ forall e, _count_leading_indent (repeat_str INDENT_STR e ++ s)
               = e + _count_leading_indent s.
Proof.
  destruct (count_leading_indent_spec (List.length s) s (le_n _)) as [E1 E2].
  split; [exact E1|]. split; [exact E2|].
  induction e as [|e IH]; [reflexivity|].
  cbn [repeat_str]. rewrite <- app_assoc. unfold INDENT_STR at 1.
  cbn [pystr String.list_ascii_of_string app _count_leading_indent].
  cbn [Ascii.eqb Bool.eqb andb]. now rewrite IH.
Qed.

(** ** Lines [key: token] *)

Lemma parse_block_scalar_line (fuel e : nat) (k tok : str) (rest : list line)
    (result : dict) (arr_mode : option (list value)) :
  isidentifier k = true -> strip tok <> [] ->
  parse_block (S fuel) e ((e, scalar_line (k, tok)) :: rest) result arr_mode
  = parse_block fuel e rest
      (dict_set k (VPrim (_parse_primitive_token tok)) result) arr_mode.
Proof.
  intros Hk Ht. unfold scalar_line. cbn [fst snd].
  pose proof (key_chars k Hk) as Hall.
  destruct (key_ends k Hk) as (c & r & Ek & Hc & _).
  destruct (plain_char_spec c Hc) as (Hsp & _ & _ & _ & Hb & Hcb & Hd & _).
  set (content := k ++ ":"%char :: " "%char :: tok).
  assert (Hstrip : exists r', strip content = c :: r').
  { unfold content. rewrite Ek. apply (strip_keeps_head c _ Hsp). }
  destruct Hstrip as (r' & Hstrip).
  assert (Hhead : exists t, content = c :: t).
  { unfold content. rewrite Ek. now eexists. }
  destruct Hhead as (t & Hhead).
  cbn [parse_block]. rewrite Nat.ltb_irrefl. cbn [orb]. rewrite Hstrip.
  assert (E1 : str_eqb (c :: r') (pystr "[]") = false).
  { apply str_eqb_neq. intros E. injection E as E _. subst c. discriminate. }
  assert (E2 : str_eqb (c :: r') (pystr "{}") = false).
  { apply str_eqb_neq. intros E. injection E as E _. subst c. discriminate. }
  assert (E3 : startswith content (pystr "- ") = false).
  { rewrite Hhead. cbn [startswith pystr String.list_ascii_of_string].
    now rewrite Ascii.eqb_sym, Hd. }
  assert (E4 : str_eqb content (pystr "-") = false).
  { apply str_eqb_neq. rewrite Hhead. intros E. injection E as E _.
    subst c. discriminate. }
  rewrite E1, E2, E3, E4. cbn [orb]. unfold content.
  rewrite (find_colon_plain k (" "%char :: tok) 0 Hall). cbn [Nat.add].
  rewrite firstn_app, firstn_all, Nat.sub_diag, firstn_O, app_nil_r.
  rewrite (strip_key k Hk).
  replace (skipn (List.length k + 1) (k ++ ":"%char :: " "%char :: tok))
    with (" "%char :: tok).
  2:{ rewrite skipn_app, skipn_all2 by lia.
      replace (List.length k + 1 - List.length k) with 1 by lia.
      reflexivity. }
  change (strip (" "%char :: tok)) with (strip tok).
  rewrite (str_eqb_neq _ _ Ht).
  rewrite (contains_plain k "["%char Hall eq_refl). cbn [andb].
  now rewrite parse_strip.
Qed.

Lemma parse_scalar_lines (kts : list (str * str)) :
  Forall scalar_line_ok kts ->
  forall (fuel e : nat) (result : dict),
    List.length kts < fuel ->
    parse_block fuel e (map (fun kt => (e, scalar_line kt)) kts) result None
    = Some (block_result (decoded_mapping kts result) None, []).
Proof.
  induction 1 as [|[k tok] kts (Hk & Ht & _) Hkts IH];
    intros fuel e result Hf.
  - destruct fuel; [simpl in Hf; lia|]. reflexivity.
  - destruct fuel; [simpl in Hf; lia|]. cbn [map].
    rewrite (parse_block_scalar_line fuel e k tok _ result None Hk Ht).
    rewrite IH by (simpl in Hf; lia). reflexivity.
Qed.

Lemma scalar_line_tokenize (kt : str * str) :
  scalar_line_ok kt ->
  no_linebreak (scalar_line kt) /\ nonblank (scalar_line kt) = true
  /\ tokenize (scalar_line kt) = (0, scalar_line kt).
Proof.
  destruct kt as [k tok]. intros (Hk & Ht & Hl). cbn [fst snd] in *.
  destruct (key_ends k Hk) as (c & r & Ek & Hc & _).
  destruct (plain_char_spec c Hc) as (Hsp & _).
  unfold scalar_line. cbn [fst snd]. split; [|split].
  - change (k ++ ":"%char :: " "%char :: tok)
      with (k ++ [":"%char] ++ (" "%char :: tok)).
    rewrite app_assoc. apply no_linebreak_app.
    + apply (no_linebreak_key_colon k Hk).
    + exact Hl.
  - unfold nonblank. apply negb_true_iff, str_eqb_neq.
    apply (strip_nonblank _ c); [rewrite Ek; now left|exact Hsp].
  - unfold tokenize.
    assert (E : _count_leading_indent (k ++ ":"%char :: " "%char :: tok) = 0).
    { rewrite Ek. cbn [app].
      apply (count_leading_indent_pad 0 c).
      destruct (Ascii.eqb c " "%char) eqn:E; [|reflexivity].
      apply Ascii.eqb_eq in E. subst c. discriminate. }
    now rewrite E.
Qed.

Lemma preprocess_scalar_lines (kts : list (str * str)) :
  Forall scalar_line_ok kts ->
  preprocess (unlines [newline] (map scalar_line kts))
  = map (fun kt => (0, scalar_line kt)) kts.
Proof.
  intros H. rewrite preprocess_unlines; [|now left|].
  - induction H as [|kt kts Hkt Hkts IH]; [reflexivity|].
    destruct (scalar_line_tokenize kt Hkt) as (_ & Hn & Ht).
    cbn [map filter]. rewrite Hn. cbn [map]. now rewrite Ht, IH.
  - induction H as [|kt kts Hkt Hkts IH]; constructor; [|exact IH].
    apply (scalar_line_tokenize kt Hkt).
Qed.

(** The text of lines [key: token] decodes to what the lines build. *)
Lemma loads_scalar_lines (kts : list (str * str)) :
  Forall scalar_line_ok kts ->
  loads (unlines [newline] (map scalar_line kts))
  = Some (block_result (decoded_mapping kts []) None).
Proof.
  intros H. unfold loads. rewrite (preprocess_scalar_lines kts H).
  rewrite (parse_scalar_lines kts H); [reflexivity|].
  rewrite length_map. lia.
Qed.

(** ** Dictionaries *)

Lemma dict_get_set_same (k : str) (v : value) (d : dict) :
  dict_get k (dict_set k v d) = Some v.
Proof.
  induction d as [|[k' v'] d IH]; cbn [dict_set dict_get].
  - now rewrite str_eqb_refl.
  - destruct (str_eqb k' k) eqn:E; cbn [dict_get].
    + now rewrite str_eqb_refl.
    + now rewrite E.
Qed.

Lemma dict_get_set_other (k k' : str) (v : value) (d : dict) :
  k' <> k -> dict_get k (dict_set k' v d) = dict_get k d.
Proof.
  intros Hk. induction d as [|[k0 v0] d IH]; cbn [dict_set dict_get].
  - now rewrite (str_eqb_neq _ _ Hk).
  - destruct (str_eqb k0 k') eqn:E; cbn [dict_get].
    + apply str_eqb_eq in E. subst k0. now rewrite (str_eqb_neq _ _ Hk).
    + now rewrite IH.
Qed.

Lemma dict_set_keys (k k' : str) (v : value) (d : dict) :
  In k (map fst (dict_set k' v d)) <-> k = k' \/ In k (map fst d).
Proof.
  induction d as [|[k0 v0] d IH]; cbn [dict_set map fst In].
  - intuition congruence.
  - destruct (str_eqb k0 k') eqn:E; cbn [map fst In].
    + apply str_eqb_eq in E. subst k0. intuition congruence.
    + rewrite IH. intuition congruence.
Qed.

Lemma dict_set_NoDup (k : str) (v : value) (d : dict) :
  NoDup (map fst d) -> NoDup (map fst (dict_set k v d)).
Proof.
  induction d as [|[k0 v0] d IH]; cbn [dict_set map fst]; intros H.
  - repeat constructor. intros [].
  - inversion H as [|? ? Hin Hd]; subst.
    destruct (str_eqb k0 k) eqn:E; cbn [map fst].
    + apply str_eqb_eq in E. subst k0. now constructor.
    + constructor; [|now apply IH]. rewrite dict_set_keys.
      intros [->|H']; [|contradiction]. now rewrite str_eqb_refl in E.
Qed.

Lemma dict_set_fresh (k : str) (v : value) (d : dict) :
  ~ In k (map fst d) -> dict_set k v d = d ++ [(k, v)].
Proof.
  induction d as [|[k0 v0] d IH]; cbn [dict_set map fst In app]; intros H;
    [reflexivity|].
  rewrite str_eqb_neq by tauto. rewrite IH by tauto. reflexivity.
Qed.

Lemma dict_mem_In (k : str) (d : dict) :
  dict_mem k d = true <-> In k (map fst d).
Proof.
  unfold dict_mem. rewrite existsb_exists, in_map_iff. split.
  - intros (kv & Hin & E). apply str_eqb_eq in E. now exists kv.
  - intros (kv & E & Hin). exists kv. split; [exact Hin|].
    now apply str_eqb_eq.
Qed.

(** A mapping is its own [block_result] unless it is the one entry
    [_table]. *)
Lemma block_result_mapping (d : dict) :
  map fst d <> [pystr "_table"] -> block_result d None = VDict d.
Proof.
  intros H. unfold block_result.
  destruct (List.length d =? 1) eqn:El; [|reflexivity].
  destruct (dict_mem (pystr "_table") d) eqn:Em; [|reflexivity].
  exfalso. apply H. apply Nat.eqb_eq in El. apply dict_mem_In in Em.
  destruct d as [|[k v] [|kv d]]; try discriminate.
  cbn in Em |- *. destruct Em as [->|[]]. reflexivity.
Qed.

(** ** Duplicate keys *)

Lemma decoded_mapping_snoc (kts : list (str * str)) (kt : str * str)
    (result : dict) :
  decoded_mapping (kts ++ [kt]) result
  = dict_set (fst kt) (VPrim (_parse_primitive_token (snd kt)))
      (decoded_mapping kts result).
Proof. unfold decoded_mapping. now rewrite fold_left_app. Qed.

Lemma decoded_mapping_spec (kts : list (str * str)) :
  NoDup (map fst (decoded_mapping kts []))
  /\ (forall k, In k (map fst (decoded_mapping kts [])) <-> In k (map fst kts))
  /\ (forall k, dict_get k (decoded_mapping kts [])
                = option_map (fun tok => VPrim (_parse_primitive_token tok))
                             (last_token k kts)).
Proof.
  induction kts as [|[k0 t0] kts (IH1 & IH2 & IH3)] using rev_ind.
  - split; [constructor|]. split; [reflexivity|]. reflexivity.
  - rewrite decoded_mapping_snoc. cbn [fst snd]. split; [|split].
    + now apply dict_set_NoDup.
    + intros k. rewrite dict_set_keys, IH2, map_app, in_app_iff.
      cbn [map fst In]. intuition congruence.
    + intros k. unfold last_token. rewrite rev_app_distr. cbn [rev app find fst].
      destruct (str_eqb k0 k) eqn:E.
      * apply str_eqb_eq in E. subst k0. cbn [option_map snd].
        apply dict_get_set_same.
      * rewrite dict_get_set_other.
        -- apply IH3.
        -- intros ->. now rewrite str_eqb_refl in E.
Qed.

(** Lines [key: token] decode to a mapping with each key once, holding the
    value of the last line with that key. *)
Theorem loads_duplicate_keys (kts : list (str * str)) :
  Forall scalar_line_ok kts -> ~ In (pystr "_table") (map fst kts) ->
  exists d,
    loads (unlines [newline] (map scalar_line kts)) = Some (VDict d)
    /\ NoDup (map fst d)
    /\ (forall k, In k (map fst d) <-> In k (map fst kts))
    /\ (forall k, dict_get k d
                  = option_map (fun tok => VPrim (_parse_primitive_token tok))
                               (last_token k kts)).
Proof.
  intros H Ht. exists (decoded_mapping kts []).
  destruct (decoded_mapping_spec kts) as (S1 & S2 & S3).
  split; [|now split]. rewrite (loads_scalar_lines kts H).
  rewrite block_result_mapping; [reflexivity|].
  intros E. apply Ht, S2. rewrite E. now left.
Qed.

Lemma loads_duplicate_keys_witness :
  exists d,
    loads (unlines [newline] [pystr "a: 1"; pystr "b: x"; pystr "a: 2"])
    = Some (VDict d)
    /\ dict_get (pystr "a") d = Some (VPrim (PyInt 2)).
Proof.
  destruct (loads_duplicate_keys
              [(pystr "a", pystr "1"); (pystr "b", pystr "x");
               (pystr "a", pystr "2")]) as (d & E & _ & _ & G).
  - repeat constructor; discriminate.
  - cbn. intros [H|[H|[H|[]]]]; discriminate.
  - exists d. split; [exact E|]. now rewrite G.
Defined.

(** ** Flat mappings *)

Lemma join_unlines (lines : list str) :
  join [newline] lines ++ match lines with [] => [] | _ :: _ => [newline] end
  = unlines [newline] lines.
Proof.
  induction lines as [|ln [|ln2 lines] IH]; [reflexivity| |].
  - unfold unlines. cbn [join flat_map]. now rewrite app_nil_r.
  - change (join [newline] (ln :: ln2 :: lines))
      with (ln ++ [newline] ++ join [newline] (ln2 :: lines)).
    change (unlines [newline] (ln :: ln2 :: lines))
      with ((ln ++ [newline]) ++ unlines [newline] (ln2 :: lines)).
    rewrite <- IH. now rewrite <- !app_assoc.
Qed.

(** The token of a scalar that is read back is not blank. *)
Lemma reads_back_nonblank (x : scalar) :
  reads_back x -> strip (_to_toon_primitive x) <> [].
Proof.
  intros H E. pose proof (reads_back_parse x H) as P.
  unfold _parse_primitive_token in P. rewrite E in P. cbn in P.
  subst x. discriminate E.
Qed.

Lemma flat_entry_line (kv : str * value) :
  flat_entry_ok kv -> scalar_line_ok (entry_token kv).
Proof.
  destruct kv as [k v]. unfold flat_entry_ok, entry_token, scalar_line_ok.
  cbn [fst snd]. intros (Hk & x & Hv & Hr & Hl). subst v. cbn [prim_text].
  split; [exact Hk|]. split; [now apply reads_back_nonblank|exact Hl].
Qed.

(** A mapping of scalars under bare keys is written as one line [key: token]
    per entry. *)
Lemma dumps_flat_mapping (items : list (str * value)) :
  items <> [] -> Forall flat_entry_ok items ->
  dumps (VDict items) None 0
  = unlines [newline] (map scalar_line (map entry_token items)).
Proof.
  intros Hne H. destruct items as [|kv0 items0]; [contradiction|].
  cbn [dumps named]. set (items := kv0 :: items0) in *.
  rewrite <- join_unlines.
  assert (E : flat_map
                (fun kv =>
                   match snd kv with
                   | VPrim x =>
                       [repeat_str INDENT_STR 0 ++ _escape_header_key (fst kv)
                          ++ pystr ": " ++ _to_toon_primitive x]
                   | _ =>
                       [repeat_str INDENT_STR 0 ++ _escape_header_key (fst kv)
                          ++ pystr ":";
                        rstrip_nl (dumps (snd kv) None (0 + 1))]
                   end) items
              = map scalar_line (map entry_token items)).
  { clear Hne. induction H as [|[k v] l (Hk & x & Hv & _) Hl IH];
      [reflexivity|].
    cbn [fst snd] in *. subst v. cbn [flat_map map snd fst].
    rewrite IH. unfold _escape_header_key. rewrite Hk. reflexivity. }
  cbn [app]. rewrite E. reflexivity.
Qed.

Lemma decoded_mapping_entries (items : list (str * value)) :
  NoDup (map fst items) -> Forall flat_entry_ok items ->
  decoded_mapping (map entry_token items) [] = items.
Proof.
  intros Hn H. induction items as [|[k v] items IH] using rev_ind;
    [reflexivity|].
  rewrite map_app in Hn. apply Forall_app in H. destruct H as [H Hkv].
  rewrite map_app. cbn [map]. rewrite decoded_mapping_snoc.
  assert (Hn' : NoDup (map fst items)) by now apply NoDup_app_remove_r in Hn.
  rewrite (IH Hn' H).
  inversion Hkv as [|? ? (Hk & x & Hv & Hr & _) _]; subst. cbn [fst snd] in *.
  subst v. cbn [entry_token fst snd prim_text].
  rewrite (reads_back_parse x Hr). apply dict_set_fresh.
  intros Hin. cbn [map fst] in Hn.
  apply NoDup_remove_2 in Hn. rewrite app_nil_r in Hn. contradiction.
Qed.

(** A mapping of scalars under distinct bare keys comes back from its text;
    the scalars are [None], booleans, integers and the texts that are quoted
    or do not read as numbers, with no line boundary in their tokens, and the
    mapping is not the one entry [_table]. *)
Theorem flat_mapping_round_trip (items : list (str * value)) :
  items <> [] -> NoDup (map fst items) -> Forall flat_entry_ok items ->
  map fst items <> [pystr "_table"] ->
  loads (dumps (VDict items) None 0) = Some (VDict items).
Proof.
  intros Hne Hn H Ht. rewrite (dumps_flat_mapping items Hne H).
  rewrite loads_scalar_lines.
  - rewrite (decoded_mapping_entries items Hn H).
    now rewrite block_result_mapping.
  - clear -H. induction H; constructor; [now apply flat_entry_line|assumption].
Qed.

Lemma flat_mapping_round_trip_witness :
  loads (dumps (VDict [(pystr "a", VPrim (PyInt 1));
                       (pystr "b", VPrim (PyBool true));
                       (pystr "c", VPrim (PyStr (pystr "x, y")))]) None 0)
  = Some (VDict [(pystr "a", VPrim (PyInt 1));
                 (pystr "b", VPrim (PyBool true));
                 (pystr "c", VPrim (PyStr (pystr "x, y")))]).
Proof.
  apply flat_mapping_round_trip.
  - discriminate.
  - repeat constructor; cbn; intuition discriminate.
  - repeat constructor; try reflexivity.
    + exists (PyInt 1). repeat split.
    + exists (PyBool true). repeat split.
    + exists (PyStr (pystr "x, y")). split; [reflexivity|].
      split; [|reflexivity]. left. right. left. cbn. tauto.
  - discriminate.
Defined.

(** ** Tokens of list elements *)








(** ** Lines of cells *)

Lemma lstrip_lead (a s : str) :
  forallb isspace a = true -> lstrip (a ++ s) = lstrip s.
Proof.
  induction a as [|c a IH]; [reflexivity|]. cbn [forallb app lstrip].
  intros H. apply andb_true_iff in H. destruct H as [-> Ha]. now apply IH.
Qed.

Lemma strip_lead (a s : str) :
  forallb isspace a = true -> strip (a ++ s) = strip s.
Proof. intros H. unfold strip. now rewrite lstrip_lead. Qed.









(** ** Lines [- cells] *)

(** A line that starts with a dash and a space adds its cells to the list
    that is being read. *)
Lemma parse_block_dash_line (fuel e : nat) (body : str) (rest : list line)
    (result : dict) (arr_mode : option (list value)) :
  parse_block (S fuel) e ((e, "-"%char :: " "%char :: body) :: rest)
    result arr_mode
  = parse_block fuel e rest result
      (Some (match arr_mode with Some a => a | None => [] end
             ++ dash_items body)).
Proof.
  cbn [parse_block]. rewrite Nat.ltb_irrefl. cbn [orb].
  destruct (strip_keeps_head "-"%char (" "%char :: body) eq_refl)
    as (r' & ->).
  assert (E1 : str_eqb ("-"%char :: r') (pystr "[]") = false) by reflexivity.
  assert (E2 : str_eqb ("-"%char :: r') (pystr "{}") = false) by reflexivity.
  rewrite E1, E2.
  change (startswith ("-"%char :: " "%char :: body) (pystr "- ")) with true.
  cbn [orb].
  assert (E3 : str_eqb ("-"%char :: " "%char :: body) (pystr "-") = false)
    by reflexivity.
  rewrite E3. cbn [skipn]. unfold dash_items.
  destruct (contains ","%char (strip body)
            && negb (startswith (strip body) [dquote]
                     || startswith (strip body) [squote])); reflexivity.
Qed.


(** ** Lists of scalars *)













(** ** Lines [name[N]: cells] *)









Lemma block_result_named (name : str) (v : value) :
  name <> pystr "_table" -> block_result [(name, v)] None = VDict [(name, v)].
Proof.
  intros H. apply block_result_mapping. cbn [map fst]. congruence.
Qed.





(** ** Table headers *)















(** ** Table rows *)




(** ** Tables through [dumps] *)








(** ** Tables through [loads] *)












(** ** Indentation is relative *)

Lemma ltb_add_r (a b d : nat) : (a + d <? b + d) = (a <? b).
Proof.
  destruct (a <? b) eqn:E.
  - apply Nat.ltb_lt in E. apply Nat.ltb_lt. lia.
  - apply Nat.ltb_ge in E. apply Nat.ltb_ge. lia.
Qed.

Lemma eqb_add_r (a b d : nat) : (a + d =? b + d) = (a =? b).
Proof.
  destruct (a =? b) eqn:E.
  - apply Nat.eqb_eq in E. apply Nat.eqb_eq. lia.
  - apply Nat.eqb_neq in E. apply Nat.eqb_neq. lia.
Qed.

Lemma table_rows_shift (keys : list str) (d r : nat) (lines : list line) :
  table_rows keys (r + d) (shift d lines)
  = (fst (table_rows keys r lines), shift d (snd (table_rows keys r lines))).
Proof.
  induction lines as [|[indent content] rest IH]; [reflexivity|].
  cbn [shift map fst snd table_rows]. rewrite eqb_add_r.
  destruct (indent =? r); [|reflexivity].
  fold (shift d rest). rewrite IH.
  now destruct (table_rows keys r rest) as [rows rest'].
Qed.

Lemma shift_bind (d : nat) (r : option (value * list line))
    (k1 k2 : value -> list line -> option (value * list line)) :
  (forall v rest, k1 v (shift d rest) = shift_result d (k2 v rest)) ->
  match shift_result d r with
  | Some (v, rest) => k1 v rest
  | None => None
  end
  = shift_result d match r with
                   | Some (v, rest) => k2 v rest
                   | None => None
                   end.
Proof. intros H. destruct r as [[v rest]|]; [apply H|reflexivity]. Qed.

(** A call that goes on with the lines that follow: the induction hypothesis
    [IH] moves the shift out of the call. *)
Ltac shift_call IH :=
  match goal with
  | |- context [parse_block ?f (?e + ?d) (shift ?d ?l) ?r ?a] =>
      rewrite (IH e l r a)
  end.

Lemma parse_block_shifted (d fuel : nat) :
  forall (e : nat) (lines : list line) (result : dict)
         (arr_mode : option (list value)),
    parse_block fuel (e + d) (shift d lines) result arr_mode
    = shift_result d (parse_block fuel e lines result arr_mode).
Proof.
  induction fuel as [|fuel IH]; intros e lines result arr; [reflexivity|].
  destruct lines as [|[indent content] rest]; [reflexivity|].
  cbn [parse_block shift map fst snd]. fold (shift d rest).
  rewrite !ltb_add_r.
  destruct ((indent <? e) || (e <? indent)); [reflexivity|].
  destruct (str_eqb (strip content) (pystr "[]")).
  { destruct (is_empty_state result arr); [reflexivity|]. now shift_call IH. }
  destruct (str_eqb (strip content) (pystr "{}")).
  { destruct (is_empty_state result arr); [reflexivity|]. now shift_call IH. }
  destruct (startswith content (pystr "- ") || str_eqb content (pystr "-")).
  { destruct (str_eqb content (pystr "-")).
    - destruct rest as [|[next_indent next] rest].
      + now shift_call IH.
      + cbn [shift map fst snd]. fold (shift d rest). rewrite ltb_add_r.
        destruct (indent <? next_indent).
        * replace (indent + d + 1) with (indent + 1 + d) by lia.
          change ((next_indent + d, next) :: shift d rest)
            with (shift d ((next_indent, next) :: rest)).
          shift_call IH.
          apply shift_bind. intros item rest'. now shift_call IH.
        * change ((next_indent + d, next) :: shift d rest)
            with (shift d ((next_indent, next) :: rest)).
          now shift_call IH.
    - match goal with |- context [if ?b then _ else _] => destruct b end;
        now shift_call IH. }
  destruct (find_colon content 0 false None) as [colon_pos|].
  2:{ destruct (is_empty_state result arr); [reflexivity|].
      destruct arr; now shift_call IH. }
  cbv zeta.
  destruct (str_eqb (strip (skipn (colon_pos + 1) content)) []).
  - match goal with |- context [if ?b then _ else _] => destruct b end.
    + replace (e + d + 1) with (e + 1 + d) by lia.
      rewrite table_rows_shift.
      destruct (table_rows (header_keys (strip (firstn colon_pos content)))
                  (e + 1) rest) as [rows rest'].
      cbn [fst snd]. now shift_call IH.
    + replace (e + d + 1) with (e + 1 + d) by lia. shift_call IH.
      apply shift_bind. intros nested rest'. now shift_call IH.
  - match goal with |- context [if ?b then _ else _] => destruct b end;
      now shift_call IH.
Qed.

(** Indentation is relative: a block that is read [d] levels deeper, from
    lines that are all [d] levels deeper, has the same value, and the lines
    it leaves are the same lines, [d] levels deeper. *)
Theorem parse_block_indentation_relative (d fuel e : nat) (lines : list line)
    (result : dict) (arr_mode : option (list value)) :
  parse_block fuel (e + d) (shift d lines) result arr_mode
  = shift_result d (parse_block fuel e lines result arr_mode).
Proof. apply parse_block_shifted. Qed.

(** ** Blocks under a key *)

Lemma indented_tokenize (ln : str) :
  nonblank (indented ln) = nonblank ln
  /\ tokenize (indented ln)
     = (fst (tokenize ln) + 1, snd (tokenize ln)).
Proof.
  split.
  - unfold nonblank, indented. now rewrite (strip_lead INDENT_STR ln eq_refl).
  - unfold tokenize, indented. cbn [fst snd].
    change (_count_leading_indent (INDENT_STR ++ ln))
      with (S (_count_leading_indent ln)).
    rewrite Nat.add_1_r. reflexivity.
Qed.

Lemma preprocess_indented_lines (lines : list str) :
  map tokenize (filter nonblank (map indented lines))
  = shift 1 (map tokenize (filter nonblank lines)).
Proof.
  induction lines as [|ln lines IH]; [reflexivity|].
  destruct (indented_tokenize ln) as [Hn Ht].
  cbn [map filter]. rewrite Hn. destruct (nonblank ln); [|exact IH].
  cbn [map shift]. fold (shift 1 (map tokenize (filter nonblank lines))).
  now rewrite Ht, IH.
Qed.

Lemma no_linebreak_indented (lines : list str) :
  Forall no_linebreak lines -> Forall no_linebreak (map indented lines).
Proof.
  induction 1 as [|ln lines Hl _ IH]; constructor; [|exact IH].
  now apply no_linebreak_app.
Qed.

Lemma length_shift (d : nat) (lines : list line) :
  List.length (shift d lines) = List.length lines.
Proof. apply length_map. Qed.

(** Lines that are deeper than the block end the block. *)
Lemma parse_block_deeper (fuel d : nat) (rest : list line) (result : dict) :
  exists left,
    parse_block (S fuel) 0 (shift (S d) rest) result None
    = Some (block_result result None, left).
Proof.
  destruct rest as [|[i c] rest]; [now exists []|].
  eexists. cbn [shift map fst snd parse_block].
  replace (0 <? i + S d) with true by (symmetry; apply Nat.ltb_lt; lia).
  rewrite orb_true_r. reflexivity.
Qed.

(** The text of a key line and a block one level deeper decodes to what the
    key and the value of the block make up. *)
Lemma loads_block_under_key (k : str) (lines : list str) (v : value) :
  isidentifier k = true -> Forall no_linebreak lines ->
  loads (unlines [newline] lines) = Some v ->
  loads (unlines [newline] ((k ++ [":"%char]) :: map indented lines))
  = Some (block_result [(k, v)] None).
Proof.
  intros Hk Hl Hv. unfold loads in *.
  rewrite (preprocess_unlines [newline] lines (or_introl eq_refl) Hl) in Hv.
  rewrite preprocess_unlines; [|now left|].
  2:{ constructor; [apply (no_linebreak_key_colon k Hk)|].
      now apply no_linebreak_indented. }
  assert (Hkl : nonblank (k ++ [":"%char]) = true).
  { unfold nonblank. rewrite (strip_key_colon k Hk).
    destruct k; [discriminate Hk|reflexivity]. }
  assert (Hkt : tokenize (k ++ [":"%char]) = (0, k ++ [":"%char])).
  { unfold tokenize.
    destruct (key_ends k Hk) as (c & r & Ek & Hc & _).
    destruct (plain_char_spec c Hc) as (Hsp & _).
    assert (E : _count_leading_indent (k ++ [":"%char]) = 0).
    { rewrite Ek. apply (count_leading_indent_pad 0 c).
      destruct (Ascii.eqb c " "%char) eqn:E; [|reflexivity].
      apply Ascii.eqb_eq in E. subst c. discriminate. }
    now rewrite E. }
  cbn [filter]. rewrite Hkl. cbn [map]. rewrite Hkt.
  rewrite preprocess_indented_lines.
  set (P := map tokenize (filter nonblank lines)) in *.
  cbn [List.length]. rewrite length_shift.
  rewrite (parse_block_key_line k Hk).
  rewrite (parse_block_shifted 1 (S (List.length P)) 0 P [] None).
  destruct (parse_block (S (List.length P)) 0 P [] None)
    as [[nested rest]|]; [|discriminate Hv].
  injection Hv as ->. cbn [shift_result option_map fst snd dict_set].
  now destruct (parse_block_deeper (List.length P) 0 rest [(k, v)])
    as (left & ->).
Qed.

(** A block under a key decodes to the mapping of the key to what the block
    decodes to on its own. *)
Theorem loads_under_key (k : str) (lines : list str) (v : value) :
  isidentifier k = true -> k <> pystr "_table" ->
  Forall no_linebreak lines ->
  loads (unlines [newline] lines) = Some v ->
  loads (unlines [newline] ((k ++ [":"%char]) :: map indented lines))
  = Some (VDict [(k, v)]).
Proof.
  intros Hk Ht Hl Hv. rewrite (loads_block_under_key k lines v Hk Hl Hv).
  now rewrite block_result_named.
Qed.

Lemma loads_under_key_witness :
  loads (unlines [newline]
           [pystr "user:"; pystr "  name: Ada"; pystr "  tags:";
            pystr "    - 1, 2"])
  = Some (VDict [(pystr "user",
                  VDict [(pystr "name", VPrim (PyStr (pystr "Ada")));
                         (pystr "tags",
                          VList [VPrim (PyInt 1); VPrim (PyInt 2)])])]).
Proof.
  apply (loads_under_key (pystr "user")
           [pystr "name: Ada"; pystr "tags:"; pystr "  - 1, 2"]).
  - reflexivity.
  - discriminate.
  - repeat constructor.
  - vm_compute. reflexivity.
Defined.

(** ** A text that starts deeper than the top level *)

(** A text whose first line that is not blank is indented decodes to the
    empty mapping, whatever follows. *)
Theorem loads_indented_text (ln : str) (lines : list str) :
  no_linebreak ln -> nonblank ln = true -> Forall no_linebreak lines ->
  loads (unlines [newline] (indented ln :: lines)) = Some (VDict []).
Proof.
  intros Hl Hn Hls. unfold loads.
  rewrite preprocess_unlines; [|now left|].
  2:{ constructor; [|exact Hls]. now apply no_linebreak_app. }
  destruct (indented_tokenize ln) as [En Et].
  cbn [filter]. rewrite En, Hn. cbn [map]. rewrite Et.
  cbn [List.length parse_block].
  replace (0 <? fst (tokenize ln) + 1) with true
    by (symmetry; apply Nat.ltb_lt; lia).
  rewrite orb_true_r. reflexivity.
Qed.

Lemma loads_indented_text_witness :
  loads (unlines [newline] [pystr "  a: 1"; pystr "b: 2"]) = Some (VDict []).
Proof.
  apply (loads_indented_text (pystr "a: 1") [pystr "b: 2"]).
  - reflexivity.
  - reflexivity.
  - repeat constructor.
Defined.

(** ** The key [_table] *)


(** ** Scalars at the top level *)








(** ** Lists over several lines *)

Lemma parse_dash_lines (bodies : list str) :
  forall (fuel e : nat) (result : dict) (arr : list value),
    List.length bodies < fuel ->
    parse_block fuel e (map (fun b => (e, dash_line b)) bodies) result
      (Some arr)
    = Some (VList (arr ++ flat_map dash_items bodies), []).
Proof.
  induction bodies as [|b bodies IH]; intros fuel e result arr Hf.
  - destruct fuel; [simpl in Hf; lia|]. cbn. now rewrite app_nil_r.
  - destruct fuel; [simpl in Hf; lia|]. cbn [map flat_map].
    unfold dash_line at 1. rewrite parse_block_dash_line.
    rewrite IH by (simpl in Hf; lia). now rewrite <- app_assoc.
Qed.

Lemma dash_line_tokenize (b : str) :
  nonblank (dash_line b) = true /\ tokenize (dash_line b) = (0, dash_line b).
Proof.
  split.
  - unfold nonblank. apply negb_true_iff, str_eqb_neq.
    apply (strip_nonblank _ "-"%char); [now left|reflexivity].
  - unfold tokenize, dash_line. reflexivity.
Qed.

(** List items on lines of their own are appended in the order of the lines;
    a line whose cells hold a comma and do not start with a quote gives one
    item per cell. *)
Theorem loads_dash_lines (bodies : list str) :
  bodies <> [] -> Forall no_linebreak bodies ->
  loads (unlines [newline] (map dash_line bodies))
  = Some (VList (flat_map dash_items bodies)).
Proof.
  intros Hn Hl. unfold loads.
  rewrite preprocess_unlines; [|now left|].
  2:{ clear Hn. induction Hl as [|b bodies Hb _ IH]; constructor; [|exact IH].
      now apply (no_linebreak_app [ "-"%char; " "%char ] b). }
  assert (P : map tokenize (filter nonblank (map dash_line bodies))
              = map (fun b => (0, dash_line b)) bodies).
  { clear. induction bodies as [|b bodies IH]; [reflexivity|].
    destruct (dash_line_tokenize b) as [Hn Ht].
    cbn [map filter]. rewrite Hn. cbn [map]. now rewrite Ht, IH. }
  rewrite P. destruct bodies as [|b bodies]; [contradiction|].
  cbn [map List.length]. rewrite length_map.
  unfold dash_line at 1. rewrite parse_block_dash_line.
  rewrite parse_dash_lines by lia. reflexivity.
Qed.

Lemma loads_dash_lines_witness :
  loads (unlines [newline] [pystr "- 1, 2"; pystr "- x"])
  = Some (VList [VPrim (PyInt 1); VPrim (PyInt 2); VPrim (PyStr (pystr "x"))]).
Proof.
  apply (loads_dash_lines [pystr "1, 2"; pystr "x"]).
  - discriminate.
  - repeat constructor.
Defined.

(** ** Blocks under a dash *)

Lemma parse_block_deeper_state (fuel d : nat) (rest : list line)
    (result : dict) (arr_mode : option (list value)) :
  exists left,
    parse_block (S fuel) 0 (shift (S d) rest) result arr_mode
    = Some (block_result result arr_mode, left).
Proof.
  destruct rest as [|[i c] rest]; [now exists []|].
  eexists. cbn [shift map fst snd parse_block].
  replace (0 <? i + S d) with true by (symmetry; apply Nat.ltb_lt; lia).
  rewrite orb_true_r. reflexivity.
Qed.

(** A dash on a line of its own takes the block one level deeper as its
    item, and [None] when no block follows. *)
Theorem loads_under_dash (lines : list str) (v : value) :
  Forall no_linebreak lines ->
  loads (unlines [newline] lines) = Some v ->
  loads (unlines [newline] (pystr "-" :: map indented lines))
  = Some (VList [match filter nonblank lines with
                 | [] => VPrim PyNone
                 | _ :: _ => v
                 end]).
Proof.
  intros Hl Hv. unfold loads in *.
  rewrite (preprocess_unlines [newline] lines (or_introl eq_refl) Hl) in Hv.
  rewrite preprocess_unlines; [|now left|].
  2:{ constructor; [reflexivity|]. now apply no_linebreak_indented. }
  cbn [filter]. change (nonblank (pystr "-")) with true. cbn [map].
  change (tokenize (pystr "-")) with (0, pystr "-").
  rewrite preprocess_indented_lines.
  destruct (filter nonblank lines) as [|ln lns] eqn:F; [reflexivity|].
  set (P := map tokenize (ln :: lns)) in *.
  assert (HP : exists i c rest, P = (i, c) :: rest).
  { unfold P. cbn [map]. destruct (tokenize ln) as [i c]. now eexists _, _, _. }
  destruct HP as (i & c & rest & EP).
  cbn [List.length]. rewrite length_shift.
  set (fuel := S (List.length P)) in *.
  cbn [parse_block]. cbn [Nat.ltb Nat.leb orb].
  change (str_eqb (strip (pystr "-")) (pystr "[]")) with false.
  change (str_eqb (strip (pystr "-")) (pystr "{}")) with false.
  change (startswith (pystr "-") (pystr "- ") || str_eqb (pystr "-") (pystr "-"))
    with true.
  change (str_eqb (pystr "-") (pystr "-")) with true. cbv iota.
  rewrite EP at 1. cbn [shift map fst snd].
  rewrite (Nat.add_1_r i). cbv iota.
  fold (shift 1 P).
  rewrite (parse_block_shifted 1 fuel 0 P [] None).
  destruct (parse_block fuel 0 P [] None)
    as [[item left]|]; [|discriminate Hv].
  injection Hv as ->. cbn [shift_result option_map fst snd app].
  unfold fuel.
  now destruct (parse_block_deeper_state (List.length P) 0 left []
                  (Some [v])) as (left' & ->).
Qed.

Lemma loads_under_dash_witness :
  loads (unlines [newline] [pystr "-"; pystr "  a: 1"; pystr "  b: 2"])
  = Some (VList [VDict [(pystr "a", VPrim (PyInt 1));
                        (pystr "b", VPrim (PyInt 2))]]).
Proof.
  apply (loads_under_dash [pystr "a: 1"; pystr "b: 2"]).
  - repeat constructor.
  - vm_compute. reflexivity.
Defined.

(** ** Keys that are not identifiers *)







(** ** Induction on printable values *)


(** ** The lines of printable values *)







(** ** The shape of the lines *)




(** ** The text of printable values *)













(** ** Reading the lines of printable values *)









(** ** Blocks of printable values *)










